(** * ytdlp_scripts: the channel/local diff pipeline of [main.py]

    A shallow embedding of [src/ytdlp_scripts/main.py] and the proofs of
    its specification.  Python values are an inductive type, a [str] is
    a sequence of code points, dictionaries are [gmap]s, sets are
    [gset]s, exceptions are the left summand of a result, and every
    call that leaves the process (the metadata query, the download, the
    directory scan, [print]) is logged in a trace. *)

From Stdlib Require Import ZArith NArith List Ascii String.
From stdpp Require Import base option list gmap sets countable.

(** ** Python strings *)

(** A [str] is a sequence of code points; a character is the number of
    its code point, so that [len], indexing and the [.] of a pattern
    count code points, as Python does.  (Numbers above 0x10FFFF stand
    for no character; what is proved for all sequences holds for the
    strings among them.) *)
Abbreviation char := N (only parsing).
Abbreviation str := (list N) (only parsing).

(** [ord(c)] of a character written in ASCII. *)
Definition ord (c : ascii) : char := N_of_ascii c.

(** The [str] of a literal of the source, which is written in ASCII. *)
Fixpoint text (s : string) : str :=
  match s with
  | EmptyString => []
  | String c s' => ord c :: text s'
  end.

Arguments ord : simpl never.
Arguments text : simpl never.

(** ** Python values *)

(** The JSON-like values that [extract_info] hands back and that
    [YoutubeDL] takes as parameters.  Floats are left out. *)
#[warnings="-register-all"]
Inductive value : Type :=
  | VNone
  | VBool (b : bool)
  | VInt (z : Z)
  | VStr (s : str)
  | VList (l : list value)
  | VDict (d : gmap str value).

(** [bool(v)]. *)
Definition truthy (v : value) : bool :=
  match v with
  | VNone => false
  | VBool b => b
  | VInt z => negb (Z.eqb z 0)
  | VStr s => match s with [] => false | _ :: _ => true end
  | VList l => match l with [] => false | _ :: _ => true end
  | VDict d => negb (bool_decide (d = ∅))
  end.

(** [isinstance(v, dict)] and [isinstance(v, list)]. *)
Definition isinstance_dict (v : value) : bool :=
  match v with VDict _ => true | _ => false end.

Definition isinstance_list (v : value) : bool :=
  match v with VList _ => true | _ => false end.

(** ** Hashable values and sets *)

(** What a [set] stores.  Python identifies [True] with [1] and [False]
    with [0] in a set, so a boolean is stored under its integer; lists
    and dictionaries are unhashable. *)
Inductive key : Type :=
  | KNone
  | KInt (z : Z)
  | KStr (s : str).

#[global] Instance key_eq_dec : EqDecision key.
Proof. solve_decision. Defined.

Definition key_to_sum (k : key) : unit + (Z + str) :=
  match k with
  | KNone => inl tt
  | KInt z => inr (inl z)
  | KStr s => inr (inr s)
  end.

Definition key_of_sum (x : unit + (Z + str)) : key :=
  match x with
  | inl _ => KNone
  | inr (inl z) => KInt z
  | inr (inr s) => KStr s
  end.

#[global] Instance key_countable : Countable key.
Proof.
  apply (inj_countable' key_to_sum key_of_sum).
  intros []; reflexivity.
Defined.

Definition hash_key (v : value) : option key :=
  match v with
  | VNone => Some KNone
  | VBool b => Some (KInt (if b then 1 else 0)%Z)
  | VInt z => Some (KInt z)
  | VStr s => Some (KStr s)
  | VList _ | VDict _ => None
  end.

(** ** Exceptions *)

(** [TypeError] stands for the two type errors the code can meet
    (an unhashable set element, [str + non-str]); its message is not
    modelled.  [OtherError] is whatever a collaborator raises. *)
Inductive exn : Type :=
  | ValueError (msg : str)
  | KeyError (k : str)
  | TypeError
  | OtherError (name msg : str).

(** The failure kinds of the specification are the four [ValueError]s
    the code raises. *)
Definition InvalidResponse : exn :=
  ValueError (text "Extract info didn't return a dict.").
Definition EmptyResult (channelname : str) : exn :=
  ValueError (text "No videos for channel: " ++ channelname).
Definition MalformedEntry : exn :=
  ValueError (text "Entry is not a dict.").
Definition InvalidPath (dirpath : str) : exn :=
  ValueError (text "Not a valid directory: " ++ dirpath).

(** [set(l)]: fails on the first unhashable element. *)
Definition py_set (l : list value) : exn + gset key :=
  match mapM hash_key l with
  | Some ks => inr (list_to_set ks)
  | None => inl TypeError
  end.

(** [d[k]] on a dictionary. *)
Definition subscript (d : gmap str value) (k : str) : exn + value :=
  match d !! k with
  | Some v => inr v
  | None => inl (KeyError k)
  end.

(** ** Effects: a trace of external calls, and failure *)

Inductive printed : Type :=
  | Text (s : str)
  | Num (n : nat)
  | StrList (l : list str).

Inductive event : Type :=
  | EExtractInfo (params : gmap str value) (url : str) (download : bool)
  | EDownload (params : gmap str value) (urls : list str)
  | EIsDir (p : str)
  | EGlob (p : str) (pat : str)
  | EPrint (parts : list printed).

(** The collaborators: the [yt_dlp] library, the file system (a [Path]
    is modelled by its text, [str(p)]) and the iteration order of a
    set, which Python leaves unspecified. *)
Record world : Type := World {
  ydl_extract_info : gmap str value -> str -> bool -> exn + value;
  ydl_download : gmap str value -> list str -> exn + Z;
  fs_is_dir : str -> bool;
  fs_glob : str -> str -> list str;
  set_iter : gset key -> list key
}.

(** [set_iter] enumerates a set: each element once, in some order. *)
Definition iter_ok (w : world) : Prop :=
  forall X : gset key, set_iter w X ≡ₚ elements X.

Definition M (A : Type) : Type := (list event * (exn + A))%type.

Definition ret {A} (a : A) : M A := ([], inr a).
Definition raise {A} (e : exn) : M A := ([], inl e).
Definition lift {A} (r : exn + A) : M A := ([], r).
Definition bind {A B} (m : M A) (f : A -> M B) : M B :=
  match m with
  | (t, inl e) => (t, inl e)
  | (t, inr a) => let '(t', r) := f a in ((t ++ t'), r)
  end.

Notation "'do' x <- m ; f" := (bind m (fun x => f))
  (at level 10, x name, m at level 100, f at level 200,
   format "'[v' 'do'  x  <-  m ; '/' f ']'").
Notation "'do_' m ; f" := (bind m (fun _ => f))
  (at level 10, m at level 100, f at level 200,
   format "'[v' 'do_'  m ; '/' f ']'").

Definition trace {A} (m : M A) : list event := fst m.
Definition result {A} (m : M A) : exn + A := snd m.

Definition call_extract_info (w : world) (params : gmap str value)
    (url : str) (download : bool) : M value :=
  ([EExtractInfo params url download], ydl_extract_info w params url download).

Definition call_download (w : world) (params : gmap str value)
    (urls : list str) : M Z :=
  ([EDownload params urls], ydl_download w params urls).

Definition call_is_dir (w : world) (p : str) : M bool :=
  ([EIsDir p], inr (fs_is_dir w p)).

Definition call_glob (w : world) (p pat : str) : M (list str) :=
  ([EGlob p pat], inr (fs_glob w p pat)).

Definition print (parts : list printed) : M unit :=
  ([EPrint parts], inr tt).

(** ** The pattern [re.compile(r"\[(.{11})\]")]

    The pattern has no alternation and no repetition of variable
    length: it is a sequence of one-character atoms, so matching at a
    position is deterministic.  [.] is compiled without [re.DOTALL]
    and matches any character but the line feed. *)

Inductive atom : Type :=
  | Lit (c : char)
  | Dot.

Record pattern : Type := Pattern {
  atoms : list atom;
  group_start : nat;   (* offset of group 1 in the match *)
  group_len : nat      (* width of group 1 *)
}.

Definition line_feed : char := 10%N.

Definition atom_matches (a : atom) (c : char) : bool :=
  match a with
  | Lit c' => N.eqb c c'
  | Dot => negb (N.eqb c line_feed)
  end.

(** Does the atom sequence match a prefix of [s]? *)
Fixpoint match_here (p : list atom) (s : str) : bool :=
  match p with
  | [] => true
  | a :: p' =>
      match s with
      | [] => false
      | c :: s' => atom_matches a c && match_here p' s'
      end
  end.

(** The leftmost position at or after the current one where the atoms
    match; [pos] counts the characters already passed. *)
Fixpoint search_from (p : list atom) (s : str) (pos : nat) : option nat :=
  if match_here p s then Some pos
  else match s with
       | [] => None
       | _ :: s' => search_from p s' (S pos)
       end.

(** A match object: the searched text, the pattern and where it matched. *)
Record Match : Type := MkMatch {
  m_string : str;
  m_re : pattern;
  m_start : nat
}.

(** [pattern.search(s)]. *)
Definition search (p : pattern) (s : str) : option Match :=
  MkMatch s p <$> search_from (atoms p) s 0.

(** [s[n:n+m]]. *)
Definition substring (n m : nat) (s : str) : str := take m (drop n s).

(** [match.group(1)]. *)
Definition group1 (m : Match) : str :=
  substring (m_start m + group_start (m_re m)) (group_len (m_re m)) (m_string m).

Definition BASE_URL : str := text "https://www.youtube.com/watch?v=".

Definition VIDEO_ID_PATTERN : pattern :=
  {| atoms := Lit (ord "[") :: repeat Dot 11 ++ [Lit (ord "]")];
     group_start := 1;
     group_len := 11 |}.

(** ** The four functions of [main.py] *)

(** The [for entry in entries] loop of [get_all_video_ids_from_channel]:
    it stops at the first entry that is not a dict, or that has no
    ["id"], whichever comes first. *)
Fixpoint collect_ids (entries : list value) (ids : list value)
    : exn + list value :=
  match entries with
  | [] => inr ids
  | entry :: rest =>
      match entry with
      | VDict d =>
          match subscript d (text "id") with
          | inl e => inl e
          | inr v => collect_ids rest (ids ++ [v])
          end
      | _ => inl (ValueError (text "Entry is not a dict."))
      end
  end.

(** The elements a [for] loop visits; used on [entries] only after
    [isinstance(entries, list)] has been checked. *)
Definition items (v : value) : list value :=
  match v with VList l => l | _ => [] end.

Definition extract_params : gmap str value :=
  {[ text "extract_flat" := VStr (text "in_playlist");
     text "ignoreerrors" := VStr (text "only_download") ]}.

Definition get_all_video_ids_from_channel (w : world) (channelname : str)
    : M (gset key) :=
  do info <- call_extract_info w extract_params
               (text "https://www.youtube.com/" ++ channelname ++ text "/videos") false;
  match info with
  | VDict d =>
      (* info.get("entries") *)
      let entries := default VNone (d !! text "entries") in
      if negb (truthy entries) || negb (isinstance_list entries)
      then raise (ValueError (text "No videos for channel: " ++ channelname))
      else
        do ids <- lift (collect_ids (items entries) []);
        lift (py_set ids)
  | _ => raise (ValueError (text "Extract info didn't return a dict."))
  end.

(** The body of the [for file in dirpath.glob("*")] loop. *)
Definition scan_file (ids : list str) (file : str) : list str :=
  match search VIDEO_ID_PATTERN file with
  | None => ids                                   (* continue *)
  | Some m =>
      let video_id := group1 m in
      if truthy (VStr video_id) then (ids ++ [video_id]) else ids
  end.

Definition get_all_video_ids_from_path (w : world) (dirpath : str)
    : M (gset key) :=
  do isdir <- call_is_dir w dirpath;
  if negb isdir
  then raise (ValueError (text "Not a valid directory: " ++ dirpath))
  else
    do files <- call_glob w dirpath (text "*");
    let ids := foldl scan_file [] files in
    lift (py_set (VStr <$> ids)).

Definition get_all_video_ids_not_locally_available (w : world)
    (channelname localpath : str) : M (gset key) :=
  do channel_ids <- get_all_video_ids_from_channel w channelname;
  do local_ids <- get_all_video_ids_from_path w localpath;
  ret (channel_ids ∖ local_ids).

(** [BASE_URL + video_id]: a [TypeError] unless [video_id] is a [str]. *)
Definition add_str (s : str) (k : key) : exn + str :=
  match k with
  | KStr t => inr (s ++ t)
  | _ => inl TypeError
  end.

(** A list comprehension whose element expression may raise. *)
Fixpoint comprehension {A B} (f : A -> exn + B) (l : list A) : exn + list B :=
  match l with
  | [] => inr []
  | x :: l' =>
      match f x with
      | inl e => inl e
      | inr y =>
          match comprehension f l' with
          | inl e => inl e
          | inr ys => inr (y :: ys)
          end
      end
  end.

Definition ydl_opts (outpath : str) : gmap str value :=
  {[ text "paths" := VDict {[ text "home" := VStr outpath ]};
     text "postprocessors" :=
       VList [ VDict {[ text "key" := VStr (text "FFmpegMetadata");
                        text "add_chapters" := VBool true;
                        text "add_metadata" := VBool true;
                        text "add_infojson" := VStr (text "if_exists") ]} ] ]}.

Definition download_missing_videos (w : world) (channelname localpath : str)
    (outpath : option str) (dry_run : bool) : M unit :=
  let outpath := match outpath with None => localpath | Some p => p end in
  do missing <- get_all_video_ids_not_locally_available w channelname localpath;
  do urls <- lift (comprehension (add_str BASE_URL) (set_iter w missing));
  do_ print [Text (text "Downloading "); Num (length urls); Text (text " missing videos")];
  if dry_run
  then print [Text (text "Would download: "); StrList urls]
  else
    do_ call_download w (ydl_opts outpath) urls;
    ret tt.

(** ** Vocabulary of the specification *)

(** "An 11-character run enclosed in square brackets" that starts at
    position [i] of [s]: an opening bracket at [i] and a closing one
    twelve characters later. *)
Definition bracketed_run (s : str) (i : nat) : Prop :=
  s !! i = Some (ord "[") /\ s !! (i + 12) = Some (ord "]").

(** The runs the compiled pattern accepts: no line feed among the
    eleven characters. *)
Definition pattern_match_at (s : str) (i : nat) : Prop :=
  bracketed_run s i /\
  forall j, 1 <= j <= 11 -> s !! (i + j) <> Some line_feed.

(** The eleven characters of the run at [i]. *)
Definition run_text (s : str) (i : nat) : str := substring (i + 1) 11 s.

(** The identifier the loop of the local lister takes from one entry. *)
Definition video_id_of (file : str) : option str :=
  match scan_file [] file with
  | [] => None
  | video_id :: _ => Some video_id
  end.

(** [s] occurs in [t]. *)
Definition contains (t s : str) : Prop :=
  exists pre post, t = pre ++ s ++ post.

(** ** Vocabulary of the claims and sample inputs *)

(** [k] is the leftmost position of [s] where the pattern matches. *)
Definition leftmost_match (s : str) (k : nat) : Prop :=
  pattern_match_at s k /\ forall j, j < k -> ~ pattern_match_at s j.

Definition sample_name : str := text "My Video [dQw4w9WgXcQ].mp4".

(** A world whose collaborators answer the same to every call. *)
Definition mk_world (info : exn + value) (is_dir : bool) (files : list str)
    : world :=
  {| ydl_extract_info := fun _ _ _ => info;
     ydl_download := fun _ _ => inr 0%Z;
     fs_is_dir := fun _ => is_dir;
     fs_glob := fun _ _ => files;
     set_iter := elements |}.

Definition nested_file : str :=
  (text "/v/[abcdefghijk]/My Video [dQw4w9WgXcQ].mp4").

Definition two_runs_file : str :=
  text "[aaaaa" ++ line_feed :: text "aaaaa][bbbbbbbbbbb]".

Definition two_ids_file : str := text "/v/[aaaaaaaaaaa] and [bbbbbbbbbbb].mkv".

Definition sample_world : world :=
  mk_world (inr VNone) true
    [(text "/v/My Video [dQw4w9WgXcQ].mp4"); text "/v/notes.txt"; two_ids_file].

(** C3 as the specification states it: the identifier of
    [sample_name] is extracted from every entry whose path text
    contains it. *)
Definition extraction_as_stated : Prop :=
  forall (w : world) (dirpath file : str),
    fs_is_dir w dirpath = true ->
    file ∈ fs_glob w dirpath (text "*") ->
    contains file sample_name ->
    video_id_of file = Some (text "dQw4w9WgXcQ") /\
    exists X, result (get_all_video_ids_from_path w dirpath) = inr X /\
              KStr (text "dQw4w9WgXcQ") ∈ X.

(** C6 as the specification states it: of several bracketed runs of
    11 characters, the leftmost is the identifier. *)
Definition tie_break_as_stated : Prop :=
  forall (w : world) (dirpath file : str) (i j : nat),
    fs_is_dir w dirpath = true ->
    file ∈ fs_glob w dirpath (text "*") ->
    i < j ->
    bracketed_run file i ->
    bracketed_run file j ->
    exists k,
      bracketed_run file k /\ (forall k', k' < k -> ~ bracketed_run file k') /\
      video_id_of file = Some (run_text file k).

Definition channel_url (channelname : str) : str :=
  text "https://www.youtube.com/" ++ channelname ++ text "/videos".

(** What the external extraction answers for a channel. *)
Definition extracted (w : world) (channelname : str) : exn + value :=
  ydl_extract_info w extract_params (channel_url channelname) false.

(** An entry from which the loop can take an identifier. *)
Definition has_id (entry : value) : bool :=
  match entry with
  | VDict d => match d !! text "id" with Some _ => true | None => false end
  | _ => false
  end.

(** [entry] is a dict whose ["id"] is [v]. *)
Definition id_of (entry v : value) : Prop :=
  exists d, entry = VDict d /\ d !! text "id" = Some v.

Definition listing (entries : list value) : exn + value :=
  inr (VDict {[ text "entries" := VList entries ]}).

Definition entry_with_id (v : value) : value := VDict {[ text "id" := v ]}.


(** The first clause of C10 as it is stated. *)
Definition key_error_as_stated : Prop :=
  forall (w : world) (channelname : str) (d : gmap str value)
         (entries : list value) (dd : gmap str value),
    extracted w channelname = inr (VDict d) ->
    d !! text "entries" = Some (VList entries) ->
    VDict dd ∈ entries ->
    dd !! text "id" = None ->
    result (get_all_video_ids_from_channel w channelname) = inl (KeyError (text "id")).

Definition count_report (urls : list str) : event :=
  EPrint [Text (text "Downloading "); Num (length urls); Text (text " missing videos")].

Definition dry_run_report (urls : list str) : event :=
  EPrint [Text (text "Would download: "); StrList urls].

Definition is_download (ev : event) : bool :=
  match ev with EDownload _ _ => true | _ => false end.

Definition example_world : world :=
  mk_world (listing [entry_with_id (VStr (text "aaaaaaaaaaa"));
                     entry_with_id (VStr (text "bbbbbbbbbbb"))])
    true [(text "/v/My Video [aaaaaaaaaaa].mp4")].

Definition example_trace : list event :=
  [EExtractInfo extract_params (channel_url (text "@c")) false;
   EIsDir (text "/v"); EGlob (text "/v") (text "*")].

Definition example_url : str := text "https://www.youtube.com/watch?v=bbbbbbbbbbb".

(** ** The command line

    [argparse] is a collaborator: [parse_args] either returns the
    namespace of the three arguments or leaves with an exception.  The
    [dirpath] argument is converted by [type=Path]; as everywhere, the
    path is modelled by its text. *)

Module Args.
Record t : Type := Make {
  channelname : str;
  dirpath : str;
  dry : bool
}.
End Args.

Definition cli (w : world) (parse_args : exn + Args.t) : M unit :=
  do args <- lift parse_args;
  download_missing_videos w (Args.channelname args) (Args.dirpath args)
    None (Args.dry args).

(** A string without the character [c]. *)
Definition free_of (c : char) (s : str) : Prop :=
  forall i, s !! i <> Some c.

(** A key that is a [str]. *)
Definition is_str (k : key) : bool :=
  match k with KStr _ => true | _ => false end.

Definition is_print (ev : event) : bool :=
  match ev with EPrint _ => true | _ => false end.

Definition shadowing_world : world :=
  mk_world (inr VNone) true
    [nested_file; text "/v/[abcdefghijk]/Other [bbbbbbbbbbb].mp4"].

Definition reordered_world : world :=
  mk_world (inr VNone) true
    [two_ids_file; text "/v/notes.txt"; text "/v/My Video [dQw4w9WgXcQ].mp4";
     (text "/v/notes.txt")].

Definition complete_world : world :=
  mk_world (listing [entry_with_id (VStr (text "aaaaaaaaaaa"))]) true
    [(text "/v/My Video [aaaaaaaaaaa].mp4"); text "/v/Other [ccccccccccc].mp4"].

Definition int_id_world : world :=
  mk_world (listing [entry_with_id (VInt 7)]) true [].

(** ** Names outside ASCII

    [umlaut_id] is [Müller GmbH] (11 characters, [ü] is U+00FC),
    [accent_file] is [Vidéo [ééééé1].mp4] (six characters between the
    brackets) and [kana_dir] is [/v/ビデオ] (U+30D3 U+30C7 U+30AA). *)

Definition umlaut_id : str := text "M" ++ 252%N :: text "ller GmbH".

Definition umlaut_file : str :=
  text "/v/[" ++ umlaut_id ++ text "] My Video [dQw4w9WgXcQ].mp4".

Definition accent_file : str :=
  text "Vid" ++ 233%N :: text "o [" ++ repeat 233%N 5 ++ text "1].mp4".

Definition kana_dir : str := text "/v/" ++ [12499%N; 12487%N; 12458%N].

Definition kana_file : str := (kana_dir ++ text "/") ++ sample_name ++ [].

Definition kana_umlaut_file : str :=
  (kana_dir ++ text "/") ++ text "[" ++ umlaut_id ++ text "]" ++ text ".mkv".

Definition unicode_world : world :=
  mk_world (inr VNone) true
    [umlaut_file; accent_file; kana_file; kana_umlaut_file].

Definition umlaut_dir : str := text "/v/[" ++ umlaut_id ++ text "]".

Definition umlaut_dir_world : world :=
  mk_world (inr VNone) true
    [umlaut_dir ++ text "/My Video [dQw4w9WgXcQ].mp4";
     umlaut_dir ++ text "/Other [bbbbbbbbbbb].mp4"].

Definition mixed_world : world :=
  mk_world (listing [entry_with_id (VStr (text "aaaaaaaaaaa"));
                     entry_with_id (VStr (text "bbbbbbbbbbb"));
                     entry_with_id (VStr (text "ccccccccccc"))])
    true [umlaut_file; text "/v/My Video [aaaaaaaaaaa].mp4"].

(** The world [w] with sets iterated in the opposite order. *)
Definition reversed (w : world) : world :=
  {| ydl_extract_info := ydl_extract_info w;
     ydl_download := ydl_download w;
     fs_is_dir := fs_is_dir w;
     fs_glob := fs_glob w;
     set_iter := fun X => reverse (set_iter w X) |}.



(** Does [s] have a bracketed run of 11 characters? *)
Definition has_run (s : str) : bool :=
  existsb (fun i => bool_decide (s !! i = Some (ord "[")) &&
                    bool_decide (s !! (i + 12) = Some (ord "]")))
    (seq 0 (length s)).

(** ** Lemmas on strings *)

Lemma get_is_Some (s : str) (i : nat) :
  i < length s <-> exists c, s !! i = Some c.
Proof. rewrite <- lookup_lt_is_Some. reflexivity. Qed.

Lemma length_substring (n m : nat) (s : str) :
  n + m <= length s -> length (substring n m s) = m.
Proof. intros H. unfold substring. rewrite length_take, length_drop. lia. Qed.

Lemma substring_append_skip (pre s : str) (n m : nat) :
  substring (length pre + n) m (pre ++ s) = substring n m s.
Proof. unfold substring. now rewrite drop_app_add. Qed.

(** ** Lemmas on the matcher *)

Lemma match_here_get (p : list atom) (s : str) :
  match_here p s = true <->
  forall i a, p !! i = Some a ->
    exists c, s !! i = Some c /\ atom_matches a c = true.
Proof.
  revert s; induction p as [|a p IH]; intros s; simpl.
  - split; [|reflexivity]. intros _ i a H. destruct i; discriminate.
  - destruct s as [|c s].
    + split; [discriminate|]. intros H.
      destruct (H 0 a eq_refl) as (c & Hc & _). discriminate.
    + rewrite andb_true_iff, IH. split.
      * intros [Ha Hp] [|i] b Hb; simpl in *.
        -- injection Hb as <-. eauto.
        -- apply Hp, Hb.
      * intros H. split.
        -- destruct (H 0 a eq_refl) as (c' & Hc' & Hm).
           simpl in Hc'. now injection Hc' as <-.
        -- intros i b Hb. apply (H (S i) b Hb).
Qed.

(** The matcher of [VIDEO_ID_PATTERN] accepts exactly the bracketed
    runs without line feed. *)
Lemma match_here_video_id (s : str) (i : nat) :
  match_here (atoms VIDEO_ID_PATTERN) (drop i s) = true <->
  pattern_match_at s i.
Proof.
  rewrite match_here_get. unfold pattern_match_at, bracketed_run. split.
  - intros H. split; [split|].
    + destruct (H 0 (Lit (ord "[")) eq_refl) as (c & Hc & Hm).
      rewrite lookup_drop, Nat.add_0_r in Hc. simpl in Hm.
      apply N.eqb_eq in Hm. now subst.
    + destruct (H 12 (Lit (ord "]")) eq_refl) as (c & Hc & Hm).
      rewrite lookup_drop in Hc. simpl in Hm.
      apply N.eqb_eq in Hm. now subst.
    + intros j Hj Hlf.
      assert (atoms VIDEO_ID_PATTERN !! j = Some Dot) as Hd.
      { do 12 (destruct j as [|j]; [first [lia|reflexivity]|]). lia. }
      destruct (H j Dot Hd) as (c & Hc & Hm).
      rewrite lookup_drop in Hc. rewrite Hlf in Hc. injection Hc as <-.
      vm_compute in Hm. discriminate.
  - intros [[Hopen Hclose] Hmid] j a Hj.
    assert (j <= 12) as Hle.
    { apply lookup_lt_Some in Hj. simpl in Hj. lia. }
    destruct (proj1 (get_is_Some s (i + j))) as [c Hc].
    { assert (i + 12 < length s) by (apply get_is_Some; eauto). lia. }
    exists c. rewrite lookup_drop. split; [assumption|].
    destruct (decide (j = 0)) as [->|]; [|destruct (decide (j = 12)) as [->|]].
    + injection Hj as <-. rewrite Nat.add_0_r, Hopen in Hc.
      injection Hc as <-. reflexivity.
    + injection Hj as <-. rewrite Hclose in Hc. injection Hc as <-. reflexivity.
    + assert (a = Dot) as ->.
      { do 13 (destruct j as [|j]; [first [lia|now injection Hj]|]). lia. }
      simpl. apply negb_true_iff, N.eqb_neq. intros ->.
      apply (Hmid j); [lia|assumption].
Qed.

Lemma search_from_spec (p : list atom) (s : str) (pos : nat) :
  match search_from p s pos with
  | Some n =>
      exists k, n = pos + k /\ match_here p (drop k s) = true /\
                forall j, j < k -> match_here p (drop j s) = false
  | None => forall j, match_here p (drop j s) = false
  end.
Proof.
  revert pos; induction s as [|c s IH]; intros pos; simpl.
  - destruct (match_here p []) eqn:E.
    + exists 0. repeat split; [lia|assumption|lia].
    + intros j. now rewrite drop_nil.
  - destruct (match_here p (c :: s)) eqn:E.
    + exists 0. repeat split; [lia|assumption|lia].
    + specialize (IH (S pos)). destruct (search_from p s (S pos)).
      * destruct IH as (k & -> & Hk & Hlt). exists (S k).
        repeat split; [lia|assumption|].
        intros [|j] Hj; [assumption|]. apply Hlt. lia.
      * intros [|j]; [assumption|apply IH].
Qed.

Lemma search_video_id (s : str) :
  match search VIDEO_ID_PATTERN s with
  | Some m => m = MkMatch s VIDEO_ID_PATTERN (m_start m) /\
              leftmost_match s (m_start m)
  | None => forall j, ~ pattern_match_at s j
  end.
Proof.
  unfold search.
  pose proof (search_from_spec (atoms VIDEO_ID_PATTERN) s 0) as H.
  destruct (search_from (atoms VIDEO_ID_PATTERN) s 0) as [n|]; simpl.
  - destruct H as (k & -> & Hk & Hlt). split; [reflexivity|]. split.
    + now apply match_here_video_id.
    + intros j Hj Hm. apply match_here_video_id in Hm.
      rewrite (Hlt j Hj) in Hm. discriminate.
  - intros j Hm. apply match_here_video_id in Hm.
    rewrite (H j) in Hm. discriminate.
Qed.

Lemma leftmost_match_unique (s : str) (k k' : nat) :
  leftmost_match s k -> leftmost_match s k' -> k = k'.
Proof.
  intros [Hk Hlt] [Hk' Hlt'].
  destruct (lt_eq_lt_dec k k') as [[H| ->]|H]; [|reflexivity|].
  - destruct (Hlt' k H Hk).
  - destruct (Hlt k' H Hk').
Qed.

Lemma search_leftmost (s : str) (k : nat) :
  leftmost_match s k ->
  search VIDEO_ID_PATTERN s = Some (MkMatch s VIDEO_ID_PATTERN k).
Proof.
  intros Hk. pose proof (search_video_id s) as H.
  destruct (search VIDEO_ID_PATTERN s) as [m|].
  - destruct H as [-> Hm]. simpl in Hm.
    now rewrite (leftmost_match_unique s k _ Hk Hm).
  - destruct (H k (proj1 Hk)).
Qed.

Lemma group1_run_text (s : str) (k : nat) :
  group1 (MkMatch s VIDEO_ID_PATTERN k) = run_text s k.
Proof. reflexivity. Qed.

Lemma run_text_length (s : str) (k : nat) :
  bracketed_run s k -> length (run_text s k) = 11.
Proof.
  intros [_ H]. apply length_substring.
  assert (k + 12 < length s) by (apply get_is_Some; eauto). lia.
Qed.

Lemma truthy_str_length (s : str) :
  0 < length s -> truthy (VStr s) = true.
Proof. destruct s; simpl; [lia|reflexivity]. Qed.

Lemma scan_file_match (ids : list str) (file : str) (k : nat) :
  leftmost_match file k ->
  scan_file ids file = (ids ++ [run_text file k]).
Proof.
  intros Hk. unfold scan_file. rewrite (search_leftmost file k Hk).
  cbv zeta. rewrite group1_run_text, truthy_str_length; [reflexivity|].
  rewrite run_text_length; [lia|apply Hk].
Qed.

Lemma scan_file_no_match (ids : list str) (file : str) :
  (forall j, ~ pattern_match_at file j) -> scan_file ids file = ids.
Proof.
  intros Hno. unfold scan_file. pose proof (search_video_id file) as H.
  destruct (search VIDEO_ID_PATTERN file) as [m|]; [|reflexivity].
  destruct H as [_ [Hm _]]. destruct (Hno _ Hm).
Qed.

Lemma leftmost_match_exists (s : str) (i : nat) :
  pattern_match_at s i -> exists k, k <= i /\ leftmost_match s k.
Proof.
  intros Hi. pose proof (search_video_id s) as H.
  destruct (search VIDEO_ID_PATTERN s) as [m|].
  - destruct H as [_ Hm]. exists (m_start m). split; [|assumption].
    destruct (le_lt_dec (m_start m) i) as [|Hlt]; [assumption|].
    destruct (proj2 Hm i Hlt Hi).
  - destruct (H i Hi).
Qed.

Lemma scan_file_cases (ids : list str) (file : str) :
  (exists k, leftmost_match file k /\
             scan_file ids file = (ids ++ [run_text file k])) \/
  ((forall j, ~ pattern_match_at file j) /\ scan_file ids file = ids).
Proof.
  pose proof (search_video_id file) as H.
  destruct (search VIDEO_ID_PATTERN file) as [m|] eqn:E.
  - left. destruct H as [_ Hm]. exists (m_start m). split; [assumption|].
    now apply scan_file_match.
  - right. split; [assumption|]. now apply scan_file_no_match.
Qed.

(** ** Lemmas on the local lister *)

Lemma scan_file_app (ids : list str) (file : str) :
  scan_file ids file = (ids ++ scan_file [] file).
Proof.
  destruct (scan_file_cases ids file) as [(k & Hk & ->)|[Hno ->]].
  - now rewrite (scan_file_match [] file k Hk).
  - now rewrite (scan_file_no_match [] file Hno), app_nil_r.
Qed.

Lemma foldl_scan_file (ids : list str) (files : list str) :
  foldl scan_file ids files = (ids ++ foldl scan_file [] files).
Proof.
  revert ids; induction files as [|file files IH]; intros ids; simpl.
  - now rewrite app_nil_r.
  - rewrite (IH (scan_file ids file)), (IH (scan_file [] file)).
    rewrite (scan_file_app ids file). now rewrite <- app_assoc.
Qed.

Lemma foldl_scan_file_app (l1 l2 : list str) :
  foldl scan_file [] (l1 ++ l2) =
  (foldl scan_file [] l1 ++ foldl scan_file [] l2).
Proof. rewrite foldl_app. apply foldl_scan_file. Qed.

Lemma video_id_of_cases (file : str) :
  (exists k, leftmost_match file k /\
             scan_file [] file = [run_text file k] /\
             video_id_of file = Some (run_text file k)) \/
  ((forall j, ~ pattern_match_at file j) /\
   scan_file [] file = [] /\ video_id_of file = None).
Proof.
  unfold video_id_of.
  destruct (scan_file_cases [] file) as [(k & Hk & ->)|[Hno ->]]; eauto 6.
Qed.

Lemma elem_of_foldl_scan_file (id : str) (files : list str) :
  id ∈ foldl scan_file [] files <->
  exists file, file ∈ files /\ video_id_of file = Some id.
Proof.
  induction files as [|file files IH]; simpl.
  - split; [intros H; inversion H|intros (f & H & _); inversion H].
  - rewrite foldl_scan_file, elem_of_app, IH. split.
    + intros [H|(f & Hf & Hid)].
      * exists file. split; [left|].
        destruct (video_id_of_cases file) as [(k & _ & E & ->)|(_ & E & _)];
          rewrite E in H.
        -- apply list_elem_of_singleton in H. now subst.
        -- inversion H.
      * exists f. split; [now right|assumption].
    + intros (f & Hf & Hid). apply elem_of_cons in Hf as [->|Hf].
      * left.
        destruct (video_id_of_cases file) as [(k & _ & E & E')|(_ & _ & E')];
          rewrite E' in Hid; [|discriminate].
        injection Hid as <-. rewrite E. now left.
      * right. eauto.
Qed.

Lemma mapM_hash_key_str (ids : list str) :
  mapM hash_key (VStr <$> ids) = Some (KStr <$> ids).
Proof.
  induction ids as [|id ids IH]; [reflexivity|].
  rewrite fmap_cons. cbn [mapM hash_key mbind option_bind].
  rewrite IH. reflexivity.
Qed.

Lemma py_set_str (ids : list str) :
  py_set (VStr <$> ids) = inr (list_to_set (KStr <$> ids)).
Proof. unfold py_set. now rewrite mapM_hash_key_str. Qed.

(** The two runs of the local lister. *)
Lemma local_lister_dir (w : world) (dirpath : str) :
  fs_is_dir w dirpath = true ->
  get_all_video_ids_from_path w dirpath =
  ([EIsDir dirpath; EGlob dirpath (text "*")],
   inr (list_to_set (KStr <$> foldl scan_file [] (fs_glob w dirpath (text "*"))))).
Proof.
  intros H. unfold get_all_video_ids_from_path, call_is_dir, call_glob, bind.
  rewrite H. cbn [negb]. unfold lift. now rewrite py_set_str.
Qed.

Lemma local_lister_not_dir (w : world) (dirpath : str) :
  fs_is_dir w dirpath = false ->
  get_all_video_ids_from_path w dirpath =
  ([EIsDir dirpath], inl (InvalidPath dirpath)).
Proof.
  intros H. unfold get_all_video_ids_from_path, call_is_dir, bind.
  now rewrite H.
Qed.

Lemma elem_of_local_ids (w : world) (dirpath : str) (X : gset key) (k : key) :
  result (get_all_video_ids_from_path w dirpath) = inr X ->
  k ∈ X <->
  exists file id, file ∈ fs_glob w dirpath (text "*") /\
                  video_id_of file = Some id /\ k = KStr id.
Proof.
  destruct (fs_is_dir w dirpath) eqn:E.
  - rewrite (local_lister_dir w dirpath E). cbn [result snd].
    intros [= <-]. rewrite elem_of_list_to_set, list_elem_of_fmap. split.
    + intros (id & -> & Hid). apply elem_of_foldl_scan_file in Hid.
      destruct Hid as (file & Hf & Hid). eauto.
    + intros (file & id & Hf & Hid & ->). exists id. split; [reflexivity|].
      apply elem_of_foldl_scan_file. eauto.
  - rewrite (local_lister_not_dir w dirpath E). discriminate.
Qed.

(** ** The local lister: extraction, tie-break, width of identifiers *)

Lemma get_append_l (s t : str) (n : nat) :
  n < length s -> (s ++ t) !! n = s !! n.
Proof. apply lookup_app_l. Qed.

Lemma get_append_r (s t : str) (n : nat) :
  (s ++ t) !! (length s + n) = t !! n.
Proof. rewrite lookup_app_r by lia. f_equal. lia. Qed.

(** A run that closes inside [s] is a run of [s ++ t], and conversely. *)
Lemma pattern_match_at_append_l (s t : str) (j : nat) :
  j + 12 < length s ->
  pattern_match_at (s ++ t) j <-> pattern_match_at s j.
Proof.
  intros H. unfold pattern_match_at, bracketed_run.
  rewrite !get_append_l by lia. split.
  - intros [Hb Hm]. split; [assumption|].
    intros i Hi. specialize (Hm i Hi). now rewrite get_append_l in Hm by lia.
  - intros [Hb Hm]. split; [assumption|].
    intros i Hi. rewrite get_append_l by lia. now apply Hm.
Qed.

(** After a text without match, the bracket of [sample_name] is the
    leftmost match. *)
Lemma leftmost_match_sample (pre post : str) :
  (forall j, ~ pattern_match_at pre j) ->
  leftmost_match (pre ++ sample_name ++ post) (length pre + 9).
Proof.
  intros Hpre. split.
  - split; [split|].
    + rewrite get_append_r. reflexivity.
    + rewrite <- Nat.add_assoc, get_append_r. reflexivity.
    + intros j Hj. rewrite <- Nat.add_assoc, get_append_r.
      do 12 (destruct j as [|j];
             [first [lia|intros Hx; vm_compute in Hx; discriminate Hx]|]).
      lia.
  - intros j Hj [[Hopen Hclose] Hmid].
    destruct (le_lt_dec (length pre) j) as [Hge|Hlt].
    + replace j with (length pre + (j - length pre)) in Hopen by lia.
      rewrite get_append_r in Hopen.
      assert (j - length pre < 9) as Hn by lia.
      revert Hopen Hn. generalize (j - length pre) as n. intros n.
      do 9 (destruct n as [|n];
            [intros Hx _; vm_compute in Hx; discriminate Hx|]).
      lia.
    + destruct (le_lt_dec (length pre) (j + 12)) as [Hge|Hin].
      * replace (j + 12) with (length pre + (j + 12 - length pre))
          in Hclose by lia.
        rewrite get_append_r in Hclose.
        assert (j + 12 - length pre < 12) as Hn by lia.
        revert Hclose Hn. generalize (j + 12 - length pre) as n. intros n.
        do 12 (destruct n as [|n];
               [intros Hx _; vm_compute in Hx; discriminate Hx|]).
        lia.
      * apply (Hpre j).
        apply (proj1 (pattern_match_at_append_l pre (sample_name ++ post) j Hin)).
        repeat split; assumption.
Qed.

Lemma run_text_sample (pre post : str) :
  run_text (pre ++ sample_name ++ post) (length pre + 9) = (text "dQw4w9WgXcQ").
Proof.
  unfold run_text. rewrite <- Nat.add_assoc, substring_append_skip.
  reflexivity.
Qed.

Lemma no_run_no_match (file : str) :
  (forall i, ~ bracketed_run file i) -> forall j, ~ pattern_match_at file j.
Proof. intros H j [Hb _]. exact (H j Hb). Qed.

(** C3 (as amended).  An entry whose path text is [sample_name] after
    a text without match of the pattern (and before anything) gives the
    identifier [dQw4w9WgXcQ], which is in the set the local lister
    returns; an entry whose path text has no bracketed 11-character run
    gives no identifier, leaves the list of identifiers unchanged, and
    the lister returns the set it would return without that entry. *)
Theorem local_lister_extraction (w : world) (dirpath file : str) :
  fs_is_dir w dirpath = true ->
  file ∈ fs_glob w dirpath (text "*") ->
  (forall pre post,
     file = pre ++ sample_name ++ post ->
     (forall j, ~ pattern_match_at pre j) ->
     video_id_of file = Some (text "dQw4w9WgXcQ") /\
     exists X, result (get_all_video_ids_from_path w dirpath) = inr X /\
               KStr (text "dQw4w9WgXcQ") ∈ X) /\
  ((forall i, ~ bracketed_run file i) ->
   video_id_of file = None /\
   (forall ids, scan_file ids file = ids) /\
   forall l1 l2,
     fs_glob w dirpath (text "*") = (l1 ++ file :: l2) ->
     result (get_all_video_ids_from_path w dirpath) =
     inr (list_to_set (KStr <$> foldl scan_file [] (l1 ++ l2)))).
Proof.
  intros Hdir Hfile. split.
  - intros pre post -> Hpre.
    pose proof (leftmost_match_sample pre post Hpre) as Hk.
    assert (video_id_of (pre ++ sample_name ++ post) = Some (text "dQw4w9WgXcQ")) as E.
    { unfold video_id_of. rewrite (scan_file_match [] _ _ Hk).
      cbn [app]. now rewrite run_text_sample. }
    split; [exact E|].
    rewrite (local_lister_dir w dirpath Hdir). eexists. split; [reflexivity|].
    apply elem_of_list_to_set, list_elem_of_fmap. eexists. split; [reflexivity|].
    apply elem_of_foldl_scan_file. eauto.
  - intros Hno. pose proof (no_run_no_match file Hno) as Hnm.
    split; [|split].
    + unfold video_id_of. now rewrite (scan_file_no_match [] file Hnm).
    + intros ids. now apply scan_file_no_match.
    + intros l1 l2 E. rewrite (local_lister_dir w dirpath Hdir), E.
      cbn [result snd]. do 3 f_equal.
      rewrite !foldl_scan_file_app. f_equal. simpl.
      rewrite (scan_file_no_match [] file Hnm). reflexivity.
Qed.

(** C6 (as amended).  When the path text of an entry has two matches of
    the pattern (bracketed runs of 11 characters none of which is a line
    feed), the entry contributes exactly one identifier: the text of
    the leftmost match. *)
Theorem leftmost_match_is_used (w : world) (dirpath file : str) (i j : nat) :
  fs_is_dir w dirpath = true ->
  file ∈ fs_glob w dirpath (text "*") ->
  i < j ->
  pattern_match_at file i ->
  pattern_match_at file j ->
  exists k,
    k <= i /\ leftmost_match file k /\
    video_id_of file = Some (run_text file k) /\
    (forall ids, scan_file ids file = (ids ++ [run_text file k])) /\
    exists X, result (get_all_video_ids_from_path w dirpath) = inr X /\
              KStr (run_text file k) ∈ X.
Proof.
  intros Hdir Hfile _ Hi _.
  destruct (leftmost_match_exists file i Hi) as (k & Hle & Hk).
  exists k. split; [assumption|]. split; [assumption|].
  assert (video_id_of file = Some (run_text file k)) as E.
  { unfold video_id_of. now rewrite (scan_file_match [] file k Hk). }
  split; [exact E|]. split.
  - intros ids. now apply scan_file_match.
  - rewrite (local_lister_dir w dirpath Hdir). eexists. split; [reflexivity|].
    apply elem_of_list_to_set, list_elem_of_fmap. eexists. split; [reflexivity|].
    apply elem_of_foldl_scan_file. eauto.
Qed.

(** C9.  Every identifier in the set the local lister returns is a
    string of length 11; the captured group of a match is never empty,
    so the test [if video_id] always succeeds. *)
Theorem local_ids_have_length_11 (w : world) (dirpath : str) (X : gset key) :
  result (get_all_video_ids_from_path w dirpath) = inr X ->
  (forall k, k ∈ X -> exists id, k = KStr id /\ length id = 11) /\
  (forall file m,
     search VIDEO_ID_PATTERN file = Some m ->
     length (group1 m) = 11 /\ group1 m <> [] /\
     truthy (VStr (group1 m)) = true).
Proof.
  intros HX. split.
  - intros k Hk. apply (elem_of_local_ids w dirpath X k HX) in Hk.
    destruct Hk as (file & id & _ & Hid & ->). exists id. split; [reflexivity|].
    destruct (video_id_of_cases file) as [(n & Hn & _ & E)|(_ & _ & E)];
      rewrite E in Hid; [|discriminate].
    injection Hid as <-. apply run_text_length, Hn.
  - intros file m Hm. pose proof (search_video_id file) as H.
    rewrite Hm in H. destruct m as [ms mp mk]. cbn [m_start] in H.
    destruct H as [[= -> ->] [[Hrun _] _]].
    rewrite group1_run_text.
    pose proof (run_text_length file mk Hrun) as Hlen.
    split; [assumption|]. split.
    + intros E. rewrite E in Hlen. discriminate.
    + apply truthy_str_length. lia.
Qed.

Lemma short_no_run (s : str) :
  length s <= 12 -> forall i, ~ bracketed_run s i.
Proof.
  intros Hlen i [_ H].
  assert (i + 12 < length s) by (apply get_is_Some; eauto). lia.
Qed.

Lemma no_run_check (s : str) :
  has_run s = false -> forall i, ~ bracketed_run s i.
Proof.
  intros H i [Hopen Hclose].
  assert (has_run s = true) as Ht; [|congruence].
  apply existsb_exists. exists i. split.
  - apply in_seq. apply lookup_lt_Some in Hopen. lia.
  - now rewrite !bool_decide_eq_true_2.
Qed.

Lemma local_lister_extraction_witness :
  (video_id_of kana_file = Some (text "dQw4w9WgXcQ") /\
   exists X, result (get_all_video_ids_from_path unicode_world (text "/v"))
               = inr X /\
             KStr (text "dQw4w9WgXcQ") ∈ X) /\
  video_id_of accent_file = None.
Proof.
  split.
  - apply (proj1 (local_lister_extraction unicode_world (text "/v")
                    kana_file eq_refl ltac:(repeat constructor))
             (kana_dir ++ text "/") []).
    + reflexivity.
    + apply no_run_no_match, short_no_run. vm_compute. lia.
  - apply (proj2 (local_lister_extraction unicode_world (text "/v")
                    accent_file eq_refl ltac:(repeat constructor))).
    apply no_run_check. reflexivity.
Defined.

Lemma leftmost_match_is_used_witness :
  exists k,
    k <= 3 /\ leftmost_match umlaut_file k /\
    video_id_of umlaut_file = Some (run_text umlaut_file k) /\
    (forall ids, scan_file ids umlaut_file =
                 (ids ++ [run_text umlaut_file k])) /\
    exists X, result (get_all_video_ids_from_path unicode_world (text "/v"))
                = inr X /\
              KStr (run_text umlaut_file k) ∈ X.
Proof.
  apply (leftmost_match_is_used unicode_world (text "/v") umlaut_file 3 26).
  - reflexivity.
  - repeat constructor.
  - lia.
  - apply (match_here_video_id umlaut_file 3). reflexivity.
  - apply (match_here_video_id umlaut_file 26). reflexivity.
Defined.

Lemma local_ids_have_length_11_witness :
  (forall k, k ∈ ({[ KStr umlaut_id; KStr (text "dQw4w9WgXcQ") ]} : gset key) ->
             exists id, k = KStr id /\ length id = 11) /\
  (forall file m,
     search VIDEO_ID_PATTERN file = Some m ->
     length (group1 m) = 11 /\ group1 m <> [] /\
     truthy (VStr (group1 m)) = true).
Proof.
  apply (local_ids_have_length_11 unicode_world (text "/v")).
  vm_compute. reflexivity.
Defined.

(** Characters are counted as code points: in
    [/v/[Müller GmbH] My Video [dQw4w9WgXcQ].mp4] the first bracket
    holds 11 characters and gives the identifier; in
    [Vidéo [ééééé1].mp4] the bracket holds six and nothing matches;
    characters above U+00FF in the directory name change nothing. *)
Lemma code_points_are_counted :
  length umlaut_id = 11 /\
  m_start <$> search VIDEO_ID_PATTERN umlaut_file = Some 3 /\
  video_id_of umlaut_file = Some umlaut_id /\
  video_id_of accent_file = None /\
  video_id_of kana_file = Some (text "dQw4w9WgXcQ") /\
  result (get_all_video_ids_from_path unicode_world (text "/v")) =
    inr {[ KStr umlaut_id; KStr (text "dQw4w9WgXcQ") ]}.
Proof. repeat split; vm_compute; reflexivity. Qed.

(** C3, counterexample.  In the directory [/v/[abcdefghijk]] the path
    text of the entry [My Video [dQw4w9WgXcQ].mp4] has an earlier match:
    the lister takes [abcdefghijk] and returns a set without
    [dQw4w9WgXcQ]. *)
Lemma local_lister_extraction_counterexample :
  contains nested_file sample_name /\
  video_id_of nested_file = Some (text "abcdefghijk") /\
  result (get_all_video_ids_from_path
            (mk_world (inr VNone) true [nested_file]) (text "/v/[abcdefghijk]")) =
    inr {[ KStr (text "abcdefghijk") ]} /\
  ~ extraction_as_stated.
Proof.
  assert (contains nested_file sample_name) as Hc.
  { exists (text "/v/[abcdefghijk]/"), (text ""). reflexivity. }
  assert (video_id_of nested_file = Some (text "abcdefghijk")) as Hid
    by (vm_compute; reflexivity).
  split; [exact Hc|]. split; [exact Hid|]. split; [vm_compute; reflexivity|].
  intros H.
  destruct (H (mk_world (inr VNone) true [nested_file]) (text "/v/[abcdefghijk]")
              nested_file eq_refl ltac:(repeat constructor) Hc) as [E _].
  rewrite Hid in E. discriminate.
Qed.

(** C6, counterexample.  The path text [[aaaaa<LF>aaaaa][bbbbbbbbbbb]]
    has two bracketed runs of 11 characters; the leftmost holds a line
    feed, which [.] does not match, and the lister takes the second. *)
Lemma leftmost_match_is_used_counterexample :
  bracketed_run two_runs_file 0 /\
  bracketed_run two_runs_file 13 /\
  video_id_of two_runs_file = Some (text "bbbbbbbbbbb") /\
  run_text two_runs_file 0 <> (text "bbbbbbbbbbb") /\
  result (get_all_video_ids_from_path
            (mk_world (inr VNone) true [two_runs_file]) (text "/v")) =
    inr {[ KStr (text "bbbbbbbbbbb") ]} /\
  ~ tie_break_as_stated.
Proof.
  assert (bracketed_run two_runs_file 0) as H0 by (split; reflexivity).
  assert (bracketed_run two_runs_file 13) as H13 by (split; reflexivity).
  assert (video_id_of two_runs_file = Some (text "bbbbbbbbbbb")) as Hid
    by (vm_compute; reflexivity).
  assert (run_text two_runs_file 0 <> (text "bbbbbbbbbbb")) as Hne
    by (vm_compute; discriminate).
  repeat (split; [first [assumption | vm_compute; reflexivity]|]).
  intros H.
  destruct (H (mk_world (inr VNone) true [two_runs_file]) (text "/v")
              two_runs_file 0 13 eq_refl ltac:(repeat constructor)
              ltac:(lia) H0 H13) as (k & Hk & Hleft & E).
  assert (k = 0) as ->.
  { destruct k as [|k]; [reflexivity|]. destruct (Hleft 0 ltac:(lia) H0). }
  rewrite Hid in E. apply Hne. congruence.
Qed.

(** ** Lemmas on the remote lister *)

Lemma remote_lister_trace (w : world) (channelname : str) :
  trace (get_all_video_ids_from_channel w channelname) =
  [EExtractInfo extract_params (channel_url channelname) false].
Proof.
  unfold get_all_video_ids_from_channel, call_extract_info, bind, channel_url.
  destruct (ydl_extract_info w _ _ _) as [e|info]; [reflexivity|].
  destruct info as [| | | | |d]; try reflexivity.
  destruct (negb _ || negb _); [reflexivity|].
  unfold lift. destruct (collect_ids _ _); reflexivity.
Qed.

Lemma remote_lister_raises (w : world) (channelname : str) (e : exn) :
  extracted w channelname = inl e ->
  result (get_all_video_ids_from_channel w channelname) = inl e.
Proof.
  unfold extracted, channel_url, get_all_video_ids_from_channel,
    call_extract_info, bind.
  now intros ->.
Qed.

Lemma remote_lister_not_dict (w : world) (channelname : str) (info : value) :
  extracted w channelname = inr info ->
  isinstance_dict info = false ->
  result (get_all_video_ids_from_channel w channelname) = inl InvalidResponse.
Proof.
  unfold extracted, channel_url, get_all_video_ids_from_channel,
    call_extract_info, bind.
  intros -> H. destruct info; try reflexivity. discriminate.
Qed.

Lemma remote_lister_no_entries (w : world) (channelname : str)
    (d : gmap str value) :
  extracted w channelname = inr (VDict d) ->
  truthy (default VNone (d !! text "entries")) = false \/
  isinstance_list (default VNone (d !! text "entries")) = false ->
  result (get_all_video_ids_from_channel w channelname) =
  inl (EmptyResult channelname).
Proof.
  unfold extracted, channel_url, get_all_video_ids_from_channel,
    call_extract_info, bind.
  intros -> H.
  assert (negb (truthy (default VNone (d !! text "entries")))
          || negb (isinstance_list (default VNone (d !! text "entries"))) = true)
    as ->; [|reflexivity].
  destruct H as [-> | ->]; [reflexivity|apply orb_true_r].
Qed.

Lemma remote_lister_entries (w : world) (channelname : str)
    (d : gmap str value) (entry : value) (entries : list value) :
  extracted w channelname = inr (VDict d) ->
  d !! text "entries" = Some (VList (entry :: entries)) ->
  result (get_all_video_ids_from_channel w channelname) =
  match collect_ids (entry :: entries) [] with
  | inl e => inl e
  | inr ids => py_set ids
  end.
Proof.
  unfold extracted, channel_url, get_all_video_ids_from_channel,
    call_extract_info, bind.
  intros -> E. rewrite E.
  cbn [default from_option id truthy isinstance_list negb orb items].
  unfold lift. destruct (collect_ids (entry :: entries) []); reflexivity.
Qed.

Lemma collect_ids_ok (entries ids vs : list value) :
  Forall2 id_of entries vs ->
  collect_ids entries ids = inr (ids ++ vs).
Proof.
  intros H. revert ids. induction H as [|entry v entries vs Hv _ IH];
    intros ids; simpl.
  - now rewrite app_nil_r.
  - destruct Hv as (d & -> & Hd). unfold subscript. rewrite Hd, IH.
    now rewrite <- app_assoc.
Qed.

Lemma has_id_id_of (entry : value) :
  has_id entry = true -> exists v, id_of entry v.
Proof.
  destruct entry as [| | | | |d]; try discriminate. simpl.
  destruct (d !! text "id") as [v|] eqn:E; [|discriminate].
  intros _. exists v, d. auto.
Qed.

Lemma collect_ids_prefix (good rest ids : list value) :
  Forall (fun entry => has_id entry = true) good ->
  exists vs, collect_ids (good ++ rest) ids = collect_ids rest (ids ++ vs).
Proof.
  intros H. revert ids. induction H as [|entry good Hentry _ IH]; intros ids.
  - exists []. now rewrite app_nil_r.
  - destruct (has_id_id_of entry Hentry) as (v & d & -> & Hd).
    destruct (IH (ids ++ [v])) as [vs Hvs].
    exists (v :: vs). simpl. unfold subscript. rewrite Hd, Hvs.
    now rewrite <- app_assoc.
Qed.


Lemma collect_ids_no_id (good rest : list value) (d : gmap str value) :
  Forall (fun entry => has_id entry = true) good ->
  d !! text "id" = None ->
  collect_ids (good ++ VDict d :: rest) [] = inl (KeyError (text "id")).
Proof.
  intros Hgood Hd.
  destruct (collect_ids_prefix good (VDict d :: rest) [] Hgood) as [vs ->].
  simpl. unfold subscript. now rewrite Hd.
Qed.



Lemma collect_ids_error (entries ids : list value) (e : exn) :
  collect_ids entries ids = inl e -> e = MalformedEntry \/ e = KeyError (text "id").
Proof.
  revert ids. induction entries as [|entry entries IH]; intros ids; simpl;
    [discriminate|].
  destruct entry as [| | | | |d]; try (intros [= <-]; now left).
  unfold subscript. destruct (d !! text "id"); [apply IH|].
  intros [= <-]. now right.
Qed.

(** ** Failure kinds *)






(** ** A missing ["id"], and identifiers of any shape *)

Lemma py_set_hashable (vs : list value) (ks : list key) :
  mapM hash_key vs = Some ks -> py_set vs = inr (list_to_set ks).
Proof. unfold py_set. now intros ->. Qed.

(** C10 (as amended).  When the first entry that is not a dict with an
    ["id"] is a dict, the remote lister fails with [KeyError], which is
    none of the four failure kinds; and when every entry has an ["id"],
    the lister returns the set of these values whatever they are
    (hashable), with no check of their type or length. *)
Theorem missing_id_is_key_error (w : world) (channelname : str)
    (d : gmap str value) :
  extracted w channelname = inr (VDict d) ->
  (forall good dd rest,
     d !! text "entries" = Some (VList (good ++ VDict dd :: rest)) ->
     Forall (fun entry => has_id entry = true) good ->
     dd !! text "id" = None ->
     result (get_all_video_ids_from_channel w channelname) =
       inl (KeyError (text "id"))) /\
  (forall c p,
     KeyError (text "id") <> InvalidResponse /\ KeyError (text "id") <> EmptyResult c /\
     KeyError (text "id") <> MalformedEntry /\ KeyError (text "id") <> InvalidPath p) /\
  (forall entries vs ks,
     entries <> [] ->
     d !! text "entries" = Some (VList entries) ->
     Forall2 id_of entries vs ->
     mapM hash_key vs = Some ks ->
     result (get_all_video_ids_from_channel w channelname) =
       inr (list_to_set ks)).
Proof.
  intros H. split; [|split].
  - intros good dd rest E Hgood Hdd.
    destruct (good ++ VDict dd :: rest) as [|entry entries] eqn:El.
    { destruct good; discriminate. }
    rewrite (remote_lister_entries w channelname d entry entries H E).
    rewrite <- El. now rewrite collect_ids_no_id.
  - intros c p. repeat split; discriminate.
  - intros entries vs ks Hne E Hids Hks.
    destruct entries as [|entry entries]; [destruct (Hne eq_refl)|].
    rewrite (remote_lister_entries w channelname d entry entries H E).
    rewrite (collect_ids_ok _ [] vs Hids). simpl.
    now apply py_set_hashable.
Qed.

(** C10, counterexample.  With the entries [[None, {}]] the loop meets
    the entry that is not a dict first and fails with MalformedEntry,
    although the second entry is a dict without ["id"]. *)
Lemma missing_id_is_key_error_counterexample :
  result (get_all_video_ids_from_channel
            (mk_world (listing [VNone; VDict ∅]) true []) (text "@c")) =
    inl MalformedEntry /\
  ~ key_error_as_stated.
Proof.
  split; [reflexivity|]. intros H.
  specialize (H (mk_world (listing [VNone; VDict ∅]) true []) (text "@c")
                {[ text "entries" := VList [VNone; VDict ∅] ]} [VNone; VDict ∅] ∅
                eq_refl eq_refl ltac:(repeat constructor) eq_refl).
  discriminate H.
Qed.

Lemma missing_id_is_key_error_witness :
  result (get_all_video_ids_from_channel
            (mk_world (listing [entry_with_id (VStr (text "x")); VDict ∅]) true [])
            (text "@c")) = inl (KeyError (text "id")) /\
  result (get_all_video_ids_from_channel
            (mk_world (listing [entry_with_id (VStr (text "x"));
                                entry_with_id (VInt 7)]) true [])
            (text "@c")) = inr {[ KStr (text "x"); KInt 7 ]}.
Proof.
  split.
  - apply (proj1 (missing_id_is_key_error
                    (mk_world (listing [entry_with_id (VStr (text "x")); VDict ∅])
                       true []) (text "@c") _ eq_refl)
             [entry_with_id (VStr (text "x"))] ∅ []).
    + reflexivity.
    + repeat constructor.
    + reflexivity.
  - apply (proj2 (proj2 (missing_id_is_key_error
                    (mk_world (listing [entry_with_id (VStr (text "x"));
                                        entry_with_id (VInt 7)]) true [])
                    (text "@c") _ eq_refl))
             [entry_with_id (VStr (text "x")); entry_with_id (VInt 7)]
             [VStr (text "x"); VInt 7] [KStr (text "x"); KInt 7]).
    + discriminate.
    + reflexivity.
    + repeat constructor; eexists; (split; [reflexivity|reflexivity]).
    + reflexivity.
Defined.

(** ** The diff computer *)

Lemma diff_run (w : world) (channelname localpath : str) :
  get_all_video_ids_not_locally_available w channelname localpath =
  match get_all_video_ids_from_channel w channelname with
  | (t1, inl e) => (t1, inl e)
  | (t1, inr channel_ids) =>
      match get_all_video_ids_from_path w localpath with
      | (t2, inl e) => ((t1 ++ t2), inl e)
      | (t2, inr local_ids) => ((t1 ++ t2), inr (channel_ids ∖ local_ids))
      end
  end.
Proof.
  unfold get_all_video_ids_not_locally_available, bind, ret.
  destruct (get_all_video_ids_from_channel w channelname) as [t1 [e|R]];
    [reflexivity|].
  destruct (get_all_video_ids_from_path w localpath) as [t2 [e|L]];
    [reflexivity|].
  now rewrite app_nil_r.
Qed.

Lemma local_lister_trace (w : world) (dirpath : str) :
  trace (get_all_video_ids_from_path w dirpath) =
  if fs_is_dir w dirpath then [EIsDir dirpath; EGlob dirpath (text "*")]
  else [EIsDir dirpath].
Proof.
  destruct (fs_is_dir w dirpath) eqn:E.
  - now rewrite local_lister_dir.
  - now rewrite local_lister_not_dir.
Qed.

(** C1.  Whenever the diff computer returns a set, both listers
    returned one, and the diff is the remote set without the local
    one: a subset of the former, disjoint from the latter. *)
Theorem diff_subset_disjoint (w : world) (channelname localpath : str)
    (X : gset key) :
  result (get_all_video_ids_not_locally_available w channelname localpath)
    = inr X ->
  exists channel_ids local_ids,
    result (get_all_video_ids_from_channel w channelname) = inr channel_ids /\
    result (get_all_video_ids_from_path w localpath) = inr local_ids /\
    X = channel_ids ∖ local_ids /\
    X ⊆ channel_ids /\ X ## local_ids.
Proof.
  rewrite diff_run.
  destruct (get_all_video_ids_from_channel w channelname) as [t1 [e|R]];
    [discriminate|].
  destruct (get_all_video_ids_from_path w localpath) as [t2 [e|L]];
    [discriminate|].
  cbn [result snd]. intros E. injection E as <-. exists R, L.
  do 3 (split; [reflexivity|]). split.
  - apply subseteq_difference_l. reflexivity.
  - apply disjoint_difference_l1. reflexivity.
Qed.

(** C8.  A failure of the remote lister is the failure of the diff
    computer, and nothing of the local lister has run by then (the
    path is not looked at); when the remote lister succeeds, a failure
    of the local lister is the failure of the diff computer; when both
    would fail, the remote failure surfaces; the calls of the remote
    lister come before those of the local one. *)
Theorem diff_propagates_failures (w : world) (channelname localpath : str) :
  let remote := get_all_video_ids_from_channel w channelname in
  let local := get_all_video_ids_from_path w localpath in
  let diff := get_all_video_ids_not_locally_available w channelname localpath in
  (forall e,
     result remote = inl e ->
     diff = (trace remote, inl e) /\
     forall p, (EIsDir p ∉ trace diff) /\ (forall pat, EGlob p pat ∉ trace diff)) /\
  (forall channel_ids e,
     result remote = inr channel_ids ->
     result local = inl e ->
     diff = ((trace remote ++ trace local), inl e)) /\
  (forall e e',
     result remote = inl e -> result local = inl e' -> result diff = inl e) /\
  (forall channel_ids local_ids,
     result remote = inr channel_ids ->
     result local = inr local_ids ->
     diff = ((trace remote ++ trace local),
             inr (channel_ids ∖ local_ids))).
Proof.
  cbv zeta. rewrite diff_run.
  pose proof (remote_lister_trace w channelname) as Ht.
  destruct (get_all_video_ids_from_channel w channelname) as [t1 [e1|R]];
    destruct (get_all_video_ids_from_path w localpath) as [t2 [e2|L]];
    cbn [trace result fst snd] in *; subst t1;
    repeat split; try discriminate; try congruence;
    try (intros Hin; apply list_elem_of_singleton in Hin; discriminate);
    intros pat Hin; apply list_elem_of_singleton in Hin; discriminate.
Qed.

Lemma diff_subset_disjoint_witness :
  exists channel_ids local_ids,
    result (get_all_video_ids_from_channel
              (mk_world (listing [entry_with_id (VStr (text "aaaaaaaaaaa"));
                                  entry_with_id (VStr (text "bbbbbbbbbbb"))])
                 true [(text "/v/[aaaaaaaaaaa].mp4")]) (text "@c")) = inr channel_ids /\
    result (get_all_video_ids_from_path
              (mk_world (listing [entry_with_id (VStr (text "aaaaaaaaaaa"));
                                  entry_with_id (VStr (text "bbbbbbbbbbb"))])
                 true [(text "/v/[aaaaaaaaaaa].mp4")]) (text "/v")) = inr local_ids /\
    ({[ KStr (text "bbbbbbbbbbb") ]} : gset key) = channel_ids ∖ local_ids /\
    ({[ KStr (text "bbbbbbbbbbb") ]} : gset key) ⊆ channel_ids /\
    ({[ KStr (text "bbbbbbbbbbb") ]} : gset key) ## local_ids.
Proof.
  apply (diff_subset_disjoint
           (mk_world (listing [entry_with_id (VStr (text "aaaaaaaaaaa"));
                               entry_with_id (VStr (text "bbbbbbbbbbb"))])
              true [(text "/v/[aaaaaaaaaaa].mp4")]) (text "@c") (text "/v")).
  vm_compute. reflexivity.
Defined.

Lemma diff_propagates_failures_witness :
  get_all_video_ids_not_locally_available
    (mk_world (inr VNone) false []) (text "@c") (text "/nowhere") =
  ([EExtractInfo extract_params (channel_url (text "@c")) false], inl InvalidResponse).
Proof.
  apply (proj1 (proj1 (diff_propagates_failures
                         (mk_world (inr VNone) false []) (text "@c") (text "/nowhere"))
                  InvalidResponse eq_refl)).
Defined.

(** ** The downloader *)

Lemma downloader_run (w : world) (channelname localpath : str)
    (outpath : option str) (dry_run : bool) :
  download_missing_videos w channelname localpath outpath dry_run =
  match get_all_video_ids_not_locally_available w channelname localpath with
  | (tr, inl e) => (tr, inl e)
  | (tr, inr missing) =>
      match comprehension (add_str BASE_URL) (set_iter w missing) with
      | inl e => (tr, inl e)
      | inr urls =>
          if dry_run
          then ((tr ++ [count_report urls; dry_run_report urls]), inr tt)
          else
            let opts := ydl_opts (default localpath outpath) in
            ((tr ++ [count_report urls; EDownload opts urls]),
             match ydl_download w opts urls with
             | inl e => inl e
             | inr _ => inr tt
             end)
      end
  end.
Proof.
  unfold download_missing_videos, bind, lift, print, call_download, ret.
  destruct (get_all_video_ids_not_locally_available w channelname localpath)
    as [tr [e|missing]]; [reflexivity|].
  destruct (comprehension (add_str BASE_URL) (set_iter w missing))
    as [e|urls]; [now rewrite app_nil_r|].
  destruct dry_run; simpl.
  - reflexivity.
  - destruct outpath; simpl; destruct (ydl_download w _ urls); reflexivity.
Qed.

Lemma comprehension_add_str (s : str) (ids : list str) :
  comprehension (add_str s) (KStr <$> ids) = inr (app s <$> ids).
Proof.
  induction ids as [|id ids IH]; [reflexivity|].
  rewrite !fmap_cons. simpl. now rewrite IH.
Qed.

Lemma all_str_fmap (l : list key) :
  (forall k, k ∈ l -> exists id, k = KStr id) ->
  exists ids, l = KStr <$> ids.
Proof.
  induction l as [|k l IH]; intros H.
  - now exists [].
  - destruct (H k ltac:(left)) as [id ->].
    destruct IH as [ids ->]. { intros k Hk. apply H. now right. }
    now exists (id :: ids).
Qed.

Lemma diff_trace_no_download (w : world) (channelname localpath : str) :
  forallb (fun ev => negb (is_download ev))
    (trace (get_all_video_ids_not_locally_available w channelname localpath))
  = true.
Proof.
  rewrite diff_run.
  pose proof (remote_lister_trace w channelname) as Ht1.
  pose proof (local_lister_trace w localpath) as Ht2.
  destruct (get_all_video_ids_from_channel w channelname) as [t1 [e1|R]];
    destruct (get_all_video_ids_from_path w localpath) as [t2 [e2|L]];
    cbn [trace fst] in *; subst; try reflexivity;
    destruct (fs_is_dir w localpath); reflexivity.
Qed.

Lemma no_download_filter (l : list event) :
  forallb (fun ev => negb (is_download ev)) l = true ->
  List.filter is_download l = [].
Proof.
  induction l as [|ev l IH]; simpl; [reflexivity|].
  destruct (is_download ev); simpl; [discriminate|exact IH].
Qed.

Lemma no_download_elem (l : list event) (ev : event) :
  forallb (fun ev => negb (is_download ev)) l = true ->
  ev ∈ l -> is_download ev = false.
Proof.
  intros H Hin. apply list_elem_of_In in Hin.
  rewrite forallb_forall in H. specialize (H ev Hin).
  now apply negb_true_iff in H.
Qed.

Lemma set_iter_strings (w : world) (missing : gset key) :
  iter_ok w ->
  (forall k, k ∈ missing -> exists id, k = KStr id) ->
  exists ids, set_iter w missing = KStr <$> ids /\
              (KStr <$> ids) ≡ₚ elements missing /\
              length ids = size missing.
Proof.
  intros Hw Hstr. specialize (Hw missing).
  destruct (all_str_fmap (set_iter w missing)) as [ids E].
  { intros k Hk. apply Hstr. rewrite Hw in Hk. now apply elem_of_elements in Hk. }
  exists ids. split; [assumption|]. rewrite <- E. split; [assumption|].
  apply Permutation_length in Hw. rewrite E, length_fmap in Hw. exact Hw.
Qed.

(** C5.  Once the missing set (of strings) is computed, the downloader
    prints the number of videos, that is the size of the set, before
    it branches; in a dry run it then prints the list of all candidate
    URLs, returns, and has made no call to the download collaborator. *)
Theorem downloader_reports_before_branching (w : world)
    (channelname localpath : str) (outpath : option str)
    (dry_run : bool) (tr : list event) (missing : gset key) :
  iter_ok w ->
  get_all_video_ids_not_locally_available w channelname localpath
    = (tr, inr missing) ->
  (forall k, k ∈ missing -> exists id, k = KStr id) ->
  exists ids,
    (KStr <$> ids) ≡ₚ elements missing /\
    let urls := app BASE_URL <$> ids in
    let run := download_missing_videos w channelname localpath outpath dry_run in
    length urls = size missing /\
    trace run =
      (tr ++ [count_report urls;
              if dry_run then dry_run_report urls
              else EDownload (ydl_opts (default localpath outpath)) urls]) /\
    (dry_run = true ->
     result run = inr tt /\ List.filter is_download (trace run) = []).
Proof.
  intros Hw Hdiff Hstr.
  destruct (set_iter_strings w missing Hw Hstr) as (ids & Hiter & Hperm & Hlen).
  exists ids. split; [assumption|]. cbv zeta.
  rewrite downloader_run, Hdiff, Hiter, comprehension_add_str.
  split; [now rewrite length_fmap|].
  pose proof (diff_trace_no_download w channelname localpath) as Hnd.
  rewrite Hdiff in Hnd. cbn [trace fst] in Hnd.
  destruct dry_run; cbn [trace result fst snd].
  - split; [reflexivity|]. intros _. split; [reflexivity|].
    rewrite List.filter_app, (no_download_filter tr Hnd). reflexivity.
  - split; [reflexivity|discriminate].
Qed.

(** C7.  Called without output directory, the downloader hands the
    download collaborator a configuration whose home directory is the
    local directory, in every call it makes; and it makes that call
    whenever the URLs could be built and the run is not a dry run. *)
Theorem default_outpath_is_localpath (w : world)
    (channelname localpath : str) (dry_run : bool) :
  (forall params urls,
     EDownload params urls
       ∈ trace (download_missing_videos w channelname localpath None dry_run) ->
     params = ydl_opts localpath /\
     params !! text "paths" = Some (VDict {[ text "home" := VStr localpath ]})) /\
  (forall tr missing urls,
     get_all_video_ids_not_locally_available w channelname localpath
       = (tr, inr missing) ->
     comprehension (add_str BASE_URL) (set_iter w missing) = inr urls ->
     trace (download_missing_videos w channelname localpath None false) =
       (tr ++ [count_report urls; EDownload (ydl_opts localpath) urls])).
Proof.
  split.
  - intros params urls. rewrite downloader_run.
    pose proof (diff_trace_no_download w channelname localpath) as Hnd.
    destruct (get_all_video_ids_not_locally_available w channelname localpath)
      as [tr [e|missing]]; cbn [trace fst] in Hnd.
    + cbn [trace fst]. intros Hin.
      pose proof (no_download_elem tr _ Hnd Hin). discriminate.
    + assert (EDownload params urls ∉ tr) as Hnot.
      { intros Hin. pose proof (no_download_elem tr _ Hnd Hin). discriminate. }
      destruct (comprehension (add_str BASE_URL) (set_iter w missing))
        as [e|us]; [intros Hin; destruct (Hnot Hin)|].
      destruct dry_run; cbn [trace fst default from_option id];
        rewrite elem_of_app; intros [Hin|Hin]; try destruct (Hnot Hin).
      * apply elem_of_cons in Hin as [Hin|Hin]; [discriminate|].
        apply list_elem_of_singleton in Hin. discriminate.
      * apply elem_of_cons in Hin as [Hin|Hin]; [discriminate|].
        apply list_elem_of_singleton in Hin. injection Hin as -> ->.
        split; [reflexivity|]. unfold ydl_opts. apply lookup_insert_eq.
  - intros tr missing urls Hdiff Hurls.
    now rewrite downloader_run, Hdiff, Hurls.
Qed.

Lemma mk_world_iter_ok (info : exn + value) (is_dir : bool)
    (files : list str) :
  iter_ok (mk_world info is_dir files).
Proof. intros X. reflexivity. Qed.

(** C2.  When the remote lister returns [{aaaaaaaaaaa, bbbbbbbbbbb}]
    and the local lister [{aaaaaaaaaaa}], the diff is [{bbbbbbbbbbb}]
    and the URLs the downloader builds, reports and hands to the
    download collaborator are the one URL of [bbbbbbbbbbb]. *)
Theorem two_remote_one_local (w : world) (channelname localpath : str)
    (outpath : option str) (dry_run : bool) :
  iter_ok w ->
  result (get_all_video_ids_from_channel w channelname) =
    inr {[ KStr (text "aaaaaaaaaaa"); KStr (text "bbbbbbbbbbb") ]} ->
  result (get_all_video_ids_from_path w localpath) =
    inr {[ KStr (text "aaaaaaaaaaa") ]} ->
  result (get_all_video_ids_not_locally_available w channelname localpath) =
    inr {[ KStr (text "bbbbbbbbbbb") ]} /\
  comprehension (add_str BASE_URL) (set_iter w {[ KStr (text "bbbbbbbbbbb") ]}) =
    inr [example_url] /\
  (list_to_set [example_url] : gset str) = {[ example_url ]} /\
  exists tr,
    trace (download_missing_videos w channelname localpath outpath dry_run) =
    (tr ++ [count_report [example_url];
            if dry_run then dry_run_report [example_url]
            else EDownload (ydl_opts (default localpath outpath))
                   [example_url]]).
Proof.
  intros Hw Hremote Hlocal.
  assert (set_iter w {[ KStr (text "bbbbbbbbbbb") ]} = [KStr (text "bbbbbbbbbbb")]) as Hiter.
  { apply Permutation_singleton_r. rewrite (Hw _). now rewrite elements_singleton. }
  assert (({[ KStr (text "aaaaaaaaaaa"); KStr (text "bbbbbbbbbbb") ]} : gset key)
            ∖ {[ KStr (text "aaaaaaaaaaa") ]} = {[ KStr (text "bbbbbbbbbbb") ]}) as Hset
    by (vm_compute; reflexivity).
  assert (exists tr,
            get_all_video_ids_not_locally_available w channelname localpath =
            (tr, inr {[ KStr (text "bbbbbbbbbbb") ]})) as [tr Hdiff].
  { rewrite diff_run.
    destruct (get_all_video_ids_from_channel w channelname) as [t1 r1].
    destruct (get_all_video_ids_from_path w localpath) as [t2 r2].
    cbn [result snd] in Hremote, Hlocal. subst r1 r2.
    rewrite Hset. eauto. }
  split; [now rewrite Hdiff|].
  split; [now rewrite Hiter|].
  split; [apply (right_id_L ∅ (∪))|].
  exists tr. rewrite downloader_run, Hdiff, Hiter.
  cbn [comprehension add_str]. destruct dry_run; reflexivity.
Qed.

Lemma two_remote_one_local_witness :
  result (get_all_video_ids_not_locally_available example_world (text "@c") (text "/v")) =
    inr {[ KStr (text "bbbbbbbbbbb") ]} /\
  comprehension (add_str BASE_URL)
    (set_iter example_world {[ KStr (text "bbbbbbbbbbb") ]}) = inr [example_url] /\
  (list_to_set [example_url] : gset str) = {[ example_url ]} /\
  exists tr,
    trace (download_missing_videos example_world (text "@c") (text "/v") None true) =
    (tr ++ [count_report [example_url]; dry_run_report [example_url]]).
Proof.
  apply (two_remote_one_local example_world (text "@c") (text "/v") None true).
  - apply mk_world_iter_ok.
  - vm_compute. reflexivity.
  - vm_compute. reflexivity.
Defined.

Lemma downloader_reports_before_branching_witness :
  exists ids,
    (KStr <$> ids) ≡ₚ elements ({[ KStr (text "bbbbbbbbbbb") ]} : gset key) /\
    let urls := app BASE_URL <$> ids in
    let run := download_missing_videos example_world (text "@c") (text "/v") None true in
    length urls = size ({[ KStr (text "bbbbbbbbbbb") ]} : gset key) /\
    trace run = (example_trace ++ [count_report urls; dry_run_report urls]) /\
    (true = true ->
     result run = inr tt /\ List.filter is_download (trace run) = []).
Proof.
  apply (downloader_reports_before_branching example_world (text "@c") (text "/v") None true
           example_trace {[ KStr (text "bbbbbbbbbbb") ]}).
  - apply mk_world_iter_ok.
  - vm_compute. reflexivity.
  - intros k Hk. apply elem_of_singleton in Hk. eauto.
Defined.

Lemma default_outpath_is_localpath_witness :
  trace (download_missing_videos example_world (text "@c") (text "/v") None false) =
  (example_trace ++ [count_report [example_url];
                     EDownload (ydl_opts (text "/v")) [example_url]]).
Proof.
  apply (proj2 (default_outpath_is_localpath example_world (text "@c") (text "/v") false)
           example_trace {[ KStr (text "bbbbbbbbbbb") ]} [example_url]).
  - vm_compute. reflexivity.
  - vm_compute. reflexivity.
Defined.

(** * Further properties of the code *)

(** ** The remote lister: its call, its failures, its result *)

Lemma collect_ids_inv (entries ids out : list value) :
  collect_ids entries ids = inr out ->
  exists vs, out = (ids ++ vs) /\ Forall2 id_of entries vs.
Proof.
  revert ids. induction entries as [|entry entries IH]; intros ids; simpl.
  - intros E. injection E as <-. exists []. now rewrite app_nil_r.
  - destruct entry as [| | | | |d]; try discriminate.
    unfold subscript. destruct (d !! text "id") as [v|] eqn:Ed; [|discriminate].
    intros E. destruct (IH _ E) as (vs & -> & Hvs).
    exists (v :: vs). split; [now rewrite <- app_assoc|].
    constructor; [|assumption]. exists d. auto.
Qed.

Lemma py_set_inv (vs : list value) (X : gset key) :
  py_set vs = inr X ->
  exists ks, Forall2 (fun v k => hash_key v = Some k) vs ks /\
             X = list_to_set ks.
Proof.
  unfold py_set. destruct (mapM hash_key vs) as [ks|] eqn:E; [|discriminate].
  intros H. injection H as <-. exists ks. split; [|reflexivity].
  now apply mapM_Some.
Qed.

Lemma py_set_unhashable (vs : list value) (v : value) :
  v ∈ vs -> hash_key v = None -> py_set vs = inl TypeError.
Proof.
  intros Hin Hv. unfold py_set.
  destruct (mapM hash_key vs) as [ks|] eqn:E; [|reflexivity].
  apply mapM_Some in E. apply list_elem_of_lookup in Hin as [i Hi].
  destruct (Forall2_lookup_l _ _ _ _ _ E Hi) as (k & _ & Hk). congruence.
Qed.

Lemma remote_lister_returns (w : world) (channelname : str) (X : gset key) :
  result (get_all_video_ids_from_channel w channelname) = inr X ->
  exists d entry entries vs,
    extracted w channelname = inr (VDict d) /\
    d !! text "entries" = Some (VList (entry :: entries)) /\
    Forall2 id_of (entry :: entries) vs /\
    py_set vs = inr X.
Proof.
  intros HX. destruct (extracted w channelname) as [e|info] eqn:Hext.
  { rewrite (remote_lister_raises w channelname e Hext) in HX. discriminate. }
  destruct (isinstance_dict info) eqn:Hd.
  2:{ rewrite (remote_lister_not_dict w channelname info Hext Hd) in HX.
      discriminate. }
  destruct info as [| | | | |d]; try discriminate.
  destruct (d !! text "entries") as [[| | | |[|entry entries]|]|] eqn:E;
    try solve [rewrite (remote_lister_no_entries w channelname d Hext) in HX;
                 [discriminate|rewrite E; simpl; auto]].
  rewrite (remote_lister_entries w channelname d entry entries Hext E) in HX.
  destruct (collect_ids (entry :: entries) []) as [e|out] eqn:Ec;
    [discriminate|].
  destruct (collect_ids_inv _ _ _ Ec) as (vs & -> & Hvs).
  exists d, entry, entries, vs. auto.
Qed.

(** X1.  Whatever the outcome, the remote lister makes exactly one
    external call: the extraction of the channel's videos page, without
    download; an exception of that call is the lister's failure. *)
Theorem remote_lister_single_call (w : world) (channelname : str) :
  trace (get_all_video_ids_from_channel w channelname) =
    [EExtractInfo extract_params
       (text "https://www.youtube.com/" ++ channelname ++ text "/videos") false] /\
  forall e,
    ydl_extract_info w extract_params
      (text "https://www.youtube.com/" ++ channelname ++ text "/videos") false = inl e ->
    get_all_video_ids_from_channel w channelname =
      ([EExtractInfo extract_params
          (text "https://www.youtube.com/" ++ channelname ++ text "/videos") false],
       inl e).
Proof.
  split; [apply remote_lister_trace|].
  intros e He. pose proof (remote_lister_trace w channelname) as Ht.
  pose proof (remote_lister_raises w channelname e He) as Hr.
  destruct (get_all_video_ids_from_channel w channelname) as [t r].
  cbn [trace result fst snd] in *. now subst.
Qed.

(** X2.  A failure of the remote lister is the exception of the
    extraction call or one of five errors of its own: the three
    [ValueError]s, [KeyError('id')] or the [TypeError] of [set]. *)
Theorem remote_lister_failures (w : world) (channelname : str) (e : exn) :
  result (get_all_video_ids_from_channel w channelname) = inl e ->
  extracted w channelname = inl e \/
  e = InvalidResponse \/ e = EmptyResult channelname \/ e = MalformedEntry \/
  e = KeyError (text "id") \/ e = TypeError.
Proof.
  intros He. destruct (extracted w channelname) as [e'|info] eqn:Hext.
  { rewrite (remote_lister_raises w channelname e' Hext) in He.
    left. congruence. }
  right. destruct (isinstance_dict info) eqn:Hd.
  2:{ rewrite (remote_lister_not_dict w channelname info Hext Hd) in He.
      left. congruence. }
  right. destruct info as [| | | | |d]; try discriminate.
  destruct (d !! text "entries") as [[| | | |[|entry entries]|]|] eqn:E;
    try solve [rewrite (remote_lister_no_entries w channelname d Hext) in He;
                 [left; congruence|rewrite E; simpl; auto]].
  right.
  rewrite (remote_lister_entries w channelname d entry entries Hext E) in He.
  destruct (collect_ids (entry :: entries) []) as [e'|out] eqn:Ec.
  - injection He as <-.
    destruct (collect_ids_error _ _ _ Ec) as [-> | ->]; auto.
  - right. right. unfold py_set in He.
    destruct (mapM hash_key out); [discriminate|congruence].
Qed.

(** X3.  When the remote lister returns a set, the extraction result
    was a dict with a non-empty list of entries, and the set holds
    exactly the (hashed) ["id"] values of the entries: duplicates
    collapse and the order of the entries does not matter. *)
Theorem remote_ids_membership (w : world) (channelname : str) (X : gset key) :
  result (get_all_video_ids_from_channel w channelname) = inr X ->
  exists d entries,
    extracted w channelname = inr (VDict d) /\
    d !! text "entries" = Some (VList entries) /\
    entries <> [] /\
    forall k, k ∈ X <->
              exists entry v, entry ∈ entries /\ id_of entry v /\
                              hash_key v = Some k.
Proof.
  intros HX.
  destruct (remote_lister_returns w channelname X HX)
    as (d & entry & entries & vs & Hext & E & Hvs & Hset).
  exists d, (entry :: entries). do 3 (split; [done|]).
  destruct (py_set_inv vs X Hset) as (ks & Hks & ->).
  intros k. rewrite elem_of_list_to_set. split.
  - intros Hk. apply list_elem_of_lookup in Hk as [i Hi].
    destruct (Forall2_lookup_r _ _ _ _ _ Hks Hi) as (v & Hv & Hh).
    destruct (Forall2_lookup_r _ _ _ _ _ Hvs Hv) as (en & Hen & Hid).
    exists en, v. split; [|auto]. apply list_elem_of_lookup. eauto.
  - intros (en & v & Hen & (d1 & -> & Hd1) & Hh).
    apply list_elem_of_lookup in Hen as [i Hi].
    destruct (Forall2_lookup_l _ _ _ _ _ Hvs Hi) as (v' & Hv' & d2 & E2 & Hd2).
    injection E2 as <-. rewrite Hd1 in Hd2. injection Hd2 as <-.
    destruct (Forall2_lookup_l _ _ _ _ _ Hks Hv') as (k' & Hk' & Hh').
    rewrite Hh in Hh'. injection Hh' as <-.
    apply list_elem_of_lookup. eauto.
Qed.

(** X4.  When every entry is a dict with an ["id"] but one of these
    values is a list or a dict, the loop completes and [set(ids)]
    fails with [TypeError]. *)
Theorem remote_unhashable_id (w : world) (channelname : str)
    (d : gmap str value) (entries vs : list value) (v : value) :
  extracted w channelname = inr (VDict d) ->
  d !! text "entries" = Some (VList entries) ->
  Forall2 id_of entries vs ->
  v ∈ vs ->
  hash_key v = None ->
  result (get_all_video_ids_from_channel w channelname) = inl TypeError.
Proof.
  intros Hext E Hvs Hin Hv.
  destruct entries as [|entry entries].
  { apply Forall2_nil_inv_l in Hvs. subst. inversion Hin. }
  rewrite (remote_lister_entries w channelname d entry entries Hext E).
  rewrite (collect_ids_ok _ [] vs Hvs). simpl.
  now apply (py_set_unhashable vs v).
Qed.

Lemma remote_lister_single_call_witness :
  get_all_video_ids_from_channel
    (mk_world (inl (OtherError (text "DownloadError") (text "no such channel"))) true [])
    (text "@c") =
  ([EExtractInfo extract_params (text "https://www.youtube.com/@c/videos") false],
   inl (OtherError (text "DownloadError") (text "no such channel"))).
Proof.
  apply (proj2 (remote_lister_single_call
                  (mk_world (inl (OtherError (text "DownloadError") (text "no such channel")))
                     true []) (text "@c"))).
  reflexivity.
Defined.

Lemma remote_lister_failures_witness :
  extracted (mk_world (listing [VDict ∅; VNone]) true []) (text "@c") =
    inl (KeyError (text "id")) \/
  KeyError (text "id") = InvalidResponse \/ KeyError (text "id") = EmptyResult (text "@c") \/
  KeyError (text "id") = MalformedEntry \/ KeyError (text "id") = KeyError (text "id") \/
  KeyError (text "id") = TypeError.
Proof.
  apply (remote_lister_failures (mk_world (listing [VDict ∅; VNone]) true [])).
  reflexivity.
Defined.

Lemma remote_ids_membership_witness :
  exists d entries,
    extracted example_world (text "@c") = inr (VDict d) /\
    d !! text "entries" = Some (VList entries) /\
    entries <> [] /\
    forall k, k ∈ ({[ KStr (text "aaaaaaaaaaa"); KStr (text "bbbbbbbbbbb") ]} : gset key) <->
              exists entry v, entry ∈ entries /\ id_of entry v /\
                              hash_key v = Some k.
Proof.
  apply (remote_ids_membership example_world (text "@c")).
  vm_compute. reflexivity.
Defined.

Lemma remote_unhashable_id_witness :
  result (get_all_video_ids_from_channel
            (mk_world (listing [entry_with_id (VStr (text "aaaaaaaaaaa"));
                                entry_with_id (VList [])]) true []) (text "@c")) =
  inl TypeError.
Proof.
  apply (remote_unhashable_id
           (mk_world (listing [entry_with_id (VStr (text "aaaaaaaaaaa"));
                               entry_with_id (VList [])]) true []) (text "@c")
           {[ text "entries" := VList [entry_with_id (VStr (text "aaaaaaaaaaa"));
                                  entry_with_id (VList [])] ]}
           [entry_with_id (VStr (text "aaaaaaaaaaa")); entry_with_id (VList [])]
           [VStr (text "aaaaaaaaaaa"); VList []] (VList [])).
  - reflexivity.
  - reflexivity.
  - repeat constructor; eexists; (split; reflexivity).
  - repeat constructor.
  - reflexivity.
Defined.

(** ** The local lister: what an identifier is, and where it comes from *)

Lemma substring_append_l (s t : str) (n m : nat) :
  n + m <= length s -> substring n m (s ++ t) = substring n m s.
Proof.
  intros H. unfold substring. rewrite drop_app_le by lia.
  apply take_app_le. rewrite length_drop. lia.
Qed.

(** A text with a bracketed run at [k] is the text before it, the
    bracketed run, and the text after it. *)
Lemma run_decomposition (s : str) (k : nat) :
  bracketed_run s k ->
  s = take k s ++ text "[" ++ run_text s k ++ text "]" ++ drop (k + 13) s.
Proof.
  intros [Hopen Hclose].
  rewrite <- (take_drop k s) at 1. f_equal.
  rewrite (drop_S s _ k Hopen).
  change (ord "[" :: drop (S k) s =
          ord "[" :: run_text s k ++ text "]" ++ drop (k + 13) s).
  f_equal. rewrite <- (take_drop 11 (drop (S k) s)) at 1.
  unfold run_text, substring. replace (k + 1) with (S k) by lia. f_equal.
  rewrite drop_drop. replace (S k + 11) with (k + 12) by lia.
  rewrite (drop_S s _ (k + 12) Hclose).
  replace (S (k + 12)) with (k + 13) by lia. reflexivity.
Qed.

(** X5.  Every identifier the local lister returns stands in the path
    text of some directory entry, between square brackets, and has 11
    characters. *)
Theorem local_ids_occur_bracketed (w : world) (dirpath : str)
    (X : gset key) (k : key) :
  result (get_all_video_ids_from_path w dirpath) = inr X ->
  k ∈ X ->
  exists file id pre post,
    file ∈ fs_glob w dirpath (text "*") /\
    k = KStr id /\
    length id = 11 /\
    file = pre ++ text "[" ++ id ++ text "]" ++ post.
Proof.
  intros HX Hk. apply (elem_of_local_ids w dirpath X k HX) in Hk.
  destruct Hk as (file & id & Hfile & Hid & ->).
  destruct (video_id_of_cases file) as [(n & Hn & _ & E)|(_ & _ & E)];
    rewrite E in Hid; [|discriminate].
  injection Hid as <-. destruct Hn as [[Hrun _] _].
  exists file, (run_text file n), (take n file), (drop (n + 13) file).
  split; [assumption|]. split; [reflexivity|].
  split; [now apply run_text_length|now apply run_decomposition].
Qed.

Lemma leftmost_match_bracketed (pre id post : str) :
  free_of (ord "[") pre ->
  length id = 11 ->
  free_of line_feed id ->
  leftmost_match (pre ++ text "[" ++ id ++ text "]" ++ post) (length pre) /\
  run_text (pre ++ text "[" ++ id ++ text "]" ++ post) (length pre) = id.
Proof.
  intros Hpre Hlen Hid. split; [split; [split; [split|]|]|].
  - replace (length pre) with (length pre + 0) at 1 by lia.
    rewrite get_append_r. reflexivity.
  - rewrite get_append_r.
    change ((id ++ text "]" ++ post) !! 11 = Some (ord "]")).
    replace 11 with (length id + 0) by lia.
    rewrite get_append_r. reflexivity.
  - intros j Hj. rewrite get_append_r.
    destruct j as [|j]; [lia|].
    change ((id ++ text "]" ++ post) !! j <> Some line_feed).
    rewrite get_append_l by lia. apply Hid.
  - intros j Hj [[Hopen _] _].
    rewrite get_append_l in Hopen by assumption. exact (Hpre j Hopen).
  - unfold run_text. rewrite substring_append_skip.
    change (take 11 (id ++ text "]" ++ post) = id).
    rewrite <- Hlen. apply take_app_length.
Qed.

(** X6.  Round trip with the naming [<anything without '['>[<id>]<rest>]
    (the default output template of the download collaborator): for
    every identifier of 11 characters without line feed, the local
    lister reads back exactly that identifier. *)
Theorem bracketed_id_round_trip (w : world) (dirpath pre id post : str) :
  fs_is_dir w dirpath = true ->
  (pre ++ text "[" ++ id ++ text "]" ++ post) ∈ fs_glob w dirpath (text "*") ->
  free_of (ord "[") pre ->
  length id = 11 ->
  free_of line_feed id ->
  video_id_of (pre ++ text "[" ++ id ++ text "]" ++ post) = Some id /\
  exists X, result (get_all_video_ids_from_path w dirpath) = inr X /\
            KStr id ∈ X.
Proof.
  intros Hdir Hfile Hpre Hlen Hid.
  destruct (leftmost_match_bracketed pre id post Hpre Hlen Hid) as [Hk Hrun].
  assert (video_id_of (pre ++ text "[" ++ id ++ text "]" ++ post) = Some id) as E.
  { unfold video_id_of. rewrite (scan_file_match [] _ _ Hk). cbn [app].
    now rewrite Hrun. }
  split; [exact E|].
  rewrite (local_lister_dir w dirpath Hdir). eexists. split; [reflexivity|].
  apply elem_of_list_to_set, list_elem_of_fmap. eexists. split; [reflexivity|].
  apply elem_of_foldl_scan_file. eauto.
Qed.

(** X7.  The set the local lister returns depends only on which path
    texts the directory scan yields, not on their order or on
    repetitions. *)
Theorem local_ids_order_irrelevant (w w' : world) (dirpath dirpath' : str) :
  fs_is_dir w dirpath = true ->
  fs_is_dir w' dirpath' = true ->
  (forall file, file ∈ fs_glob w dirpath (text "*") <->
                file ∈ fs_glob w' dirpath' (text "*")) ->
  result (get_all_video_ids_from_path w dirpath) =
  result (get_all_video_ids_from_path w' dirpath').
Proof.
  intros Hdir Hdir' Hsame.
  destruct (result (get_all_video_ids_from_path w dirpath)) as [e|X] eqn:HX.
  { rewrite (local_lister_dir w dirpath Hdir) in HX. discriminate. }
  destruct (result (get_all_video_ids_from_path w' dirpath')) as [e|X'] eqn:HX'.
  { rewrite (local_lister_dir w' dirpath' Hdir') in HX'. discriminate. }
  f_equal. apply set_eq. intros k.
  rewrite (elem_of_local_ids w dirpath X k HX).
  rewrite (elem_of_local_ids w' dirpath' X' k HX').
  split; intros (file & id & Hf & Hid & ->); exists file, id;
    (split; [now apply Hsame|auto]).
Qed.

Lemma length_foldl_scan_file (files : list str) :
  length (foldl scan_file [] files) <= length files.
Proof.
  induction files as [|file files IH]; simpl; [lia|].
  rewrite foldl_scan_file, length_app.
  destruct (video_id_of_cases file) as [(k & _ & -> & _)|(_ & -> & _)];
    simpl; lia.
Qed.

Lemma size_list_to_set_le (l : list key) :
  size (list_to_set l : gset key) <= length l.
Proof.
  induction l as [|k l IH].
  - rewrite list_to_set_nil, size_empty. reflexivity.
  - rewrite list_to_set_cons, size_union_alt, size_singleton. cbn [length].
    assert (size (list_to_set l ∖ {[k]} : gset key)
            <= size (list_to_set l : gset key)).
    { apply subseteq_size. apply subseteq_difference_l. reflexivity. }
    lia.
Qed.

(** X8.  The local lister takes at most one identifier from each
    directory entry: the set it returns has at most as many elements as
    the directory has entries. *)
Theorem local_ids_size_bound (w : world) (dirpath : str) (X : gset key) :
  result (get_all_video_ids_from_path w dirpath) = inr X ->
  size X <= length (fs_glob w dirpath (text "*")).
Proof.
  destruct (fs_is_dir w dirpath) eqn:Hdir.
  - rewrite (local_lister_dir w dirpath Hdir). cbn [result snd].
    intros E. injection E as <-.
    etransitivity; [apply size_list_to_set_le|].
    rewrite length_fmap. apply length_foldl_scan_file.
  - rewrite (local_lister_not_dir w dirpath Hdir). discriminate.
Qed.

Lemma leftmost_match_append (s t : str) (k : nat) :
  leftmost_match s k ->
  leftmost_match (s ++ t) k /\ run_text (s ++ t) k = run_text s k.
Proof.
  intros [Hk Hlt].
  assert (k + 12 < length s) as Hlen.
  { destruct Hk as [[_ Hclose] _]. apply get_is_Some. eauto. }
  split; [split|].
  - now apply pattern_match_at_append_l.
  - intros j Hj Hm. apply (Hlt j Hj).
    apply (pattern_match_at_append_l s t j); [lia|assumption].
  - unfold run_text. apply substring_append_l. lia.
Qed.

(** X9.  The pattern is searched in the whole path text.  So in a
    directory whose own path text has a match, every entry (its path
    text begins with the directory's) is given the identifier found in
    the directory's path: the lister returns no other identifier. *)
Theorem directory_id_shadows_entries (w : world) (dirpath : str) (k : nat)
    (X : gset key) :
  leftmost_match dirpath k ->
  (forall file, file ∈ fs_glob w dirpath (text "*") ->
                exists rest, file = dirpath ++ rest) ->
  result (get_all_video_ids_from_path w dirpath) = inr X ->
  (forall file, file ∈ fs_glob w dirpath (text "*") ->
                video_id_of file = Some (run_text dirpath k)) /\
  X ⊆ {[ KStr (run_text dirpath k) ]} /\
  (fs_glob w dirpath (text "*") <> [] -> X = {[ KStr (run_text dirpath k) ]}).
Proof.
  intros Hk Hext HX.
  assert (forall file, file ∈ fs_glob w dirpath (text "*") ->
                       video_id_of file = Some (run_text dirpath k)) as Hall.
  { intros file Hf. destruct (Hext file Hf) as [rest ->].
    destruct (leftmost_match_append dirpath rest k Hk) as [Hk' Hrun].
    unfold video_id_of. rewrite (scan_file_match [] _ _ Hk'). cbn [app].
    now rewrite Hrun. }
  split; [exact Hall|].
  assert (X ⊆ {[ KStr (run_text dirpath k) ]}) as Hsub.
  { intros x Hx. apply (elem_of_local_ids w dirpath X x HX) in Hx.
    destruct Hx as (file & id & Hf & Hid & ->).
    rewrite (Hall file Hf) in Hid. injection Hid as <-.
    now apply elem_of_singleton. }
  split; [exact Hsub|].
  intros Hne. apply set_eq. intros x. split; [apply Hsub|].
  intros Hx. apply elem_of_singleton in Hx as ->.
  destruct (fs_glob w dirpath (text "*")) as [|file files] eqn:E; [done|].
  apply (elem_of_local_ids w dirpath X _ HX).
  exists file, (run_text dirpath k). rewrite E.
  split; [left|]. split; [|reflexivity].
  apply Hall. left.
Qed.

Lemma free_of_forallb (c : char) (s : str) :
  forallb (fun x => negb (N.eqb x c)) s = true -> free_of c s.
Proof.
  intros H i Hi. apply list_elem_of_lookup_2, list_elem_of_In in Hi.
  rewrite forallb_forall in H. specialize (H c Hi).
  now rewrite N.eqb_refl in H.
Qed.

Lemma leftmost_match_compute (s : str) (k : nat) :
  search_from (atoms VIDEO_ID_PATTERN) s 0 = Some k -> leftmost_match s k.
Proof.
  intros E. pose proof (search_video_id s) as H. unfold search in H.
  rewrite E in H. apply H.
Qed.

Lemma local_ids_occur_bracketed_witness :
  exists file id pre post,
    file ∈ fs_glob unicode_world (text "/v") (text "*") /\
    KStr umlaut_id = KStr id /\
    length id = 11 /\
    file = pre ++ text "[" ++ id ++ text "]" ++ post.
Proof.
  apply (local_ids_occur_bracketed unicode_world (text "/v")
           {[ KStr umlaut_id; KStr (text "dQw4w9WgXcQ") ]}).
  - vm_compute. reflexivity.
  - apply elem_of_union_l, elem_of_singleton. reflexivity.
Defined.

Lemma bracketed_id_round_trip_witness :
  video_id_of kana_umlaut_file = Some umlaut_id /\
  exists X, result (get_all_video_ids_from_path unicode_world (text "/v"))
              = inr X /\
            KStr umlaut_id ∈ X.
Proof.
  apply (bracketed_id_round_trip unicode_world (text "/v")
           (kana_dir ++ text "/") umlaut_id (text ".mkv")).
  - reflexivity.
  - repeat constructor.
  - apply free_of_forallb. reflexivity.
  - reflexivity.
  - apply free_of_forallb. reflexivity.
Defined.

Lemma local_ids_order_irrelevant_witness :
  result (get_all_video_ids_from_path sample_world (text "/v")) =
  result (get_all_video_ids_from_path reordered_world (text "/w")).
Proof.
  apply (local_ids_order_irrelevant sample_world reordered_world (text "/v") (text "/w")).
  - reflexivity.
  - reflexivity.
  - intros file. cbn [fs_glob sample_world reordered_world mk_world].
    rewrite !elem_of_cons, !elem_of_nil. tauto.
Defined.

Lemma local_ids_size_bound_witness :
  size ({[ KStr (text "dQw4w9WgXcQ"); KStr (text "aaaaaaaaaaa") ]} : gset key) <=
  length (fs_glob sample_world (text "/v") (text "*")).
Proof.
  apply (local_ids_size_bound sample_world (text "/v")).
  vm_compute. reflexivity.
Defined.

Lemma directory_id_shadows_entries_witness :
  (forall file, file ∈ fs_glob umlaut_dir_world umlaut_dir (text "*") ->
                video_id_of file = Some (run_text umlaut_dir 3)) /\
  ({[ KStr umlaut_id ]} : gset key) ⊆ {[ KStr (run_text umlaut_dir 3) ]} /\
  (fs_glob umlaut_dir_world umlaut_dir (text "*") <> [] ->
   ({[ KStr umlaut_id ]} : gset key) = {[ KStr (run_text umlaut_dir 3) ]}).
Proof.
  apply (directory_id_shadows_entries umlaut_dir_world umlaut_dir 3).
  - apply leftmost_match_compute. reflexivity.
  - intros file Hf. cbn [fs_glob umlaut_dir_world mk_world] in Hf.
    apply elem_of_cons in Hf as [-> |Hf].
    + eexists. reflexivity.
    + apply list_elem_of_singleton in Hf as ->. eexists. reflexivity.
  - vm_compute. reflexivity.
Defined.

(** ** The diff computer and the downloader: composition *)

(** X10.  An identifier is reported missing exactly when the remote
    lister returned it and no entry of the local directory carries
    it. *)
Theorem diff_membership (w : world) (channelname localpath : str)
    (X : gset key) :
  result (get_all_video_ids_not_locally_available w channelname localpath)
    = inr X ->
  exists channel_ids,
    result (get_all_video_ids_from_channel w channelname) = inr channel_ids /\
    forall k,
      k ∈ X <->
      k ∈ channel_ids /\
      forall file id,
        file ∈ fs_glob w localpath (text "*") ->
        video_id_of file = Some id -> k <> KStr id.
Proof.
  intros HX.
  destruct (diff_subset_disjoint w channelname localpath X HX)
    as (R & L & HR & HL & -> & _ & _).
  exists R. split; [assumption|]. intros k.
  rewrite elem_of_difference, (elem_of_local_ids w localpath L k HL).
  split; intros [Hk Hno]; (split; [assumption|]).
  - intros file id Hf Hid ->. apply Hno. eauto.
  - intros (file & id & Hf & Hid & ->). exact (Hno file id Hf Hid eq_refl).
Qed.

Lemma diff_trace_shape (w : world) (channelname localpath : str) :
  exists fs_calls,
    trace (get_all_video_ids_not_locally_available w channelname localpath) =
      EExtractInfo extract_params (channel_url channelname) false :: fs_calls /\
    (fs_calls = [] \/ fs_calls = [EIsDir localpath] \/
     fs_calls = [EIsDir localpath; EGlob localpath (text "*")]).
Proof.
  rewrite diff_run.
  pose proof (remote_lister_trace w channelname) as Ht1.
  pose proof (local_lister_trace w localpath) as Ht2.
  destruct (get_all_video_ids_from_channel w channelname) as [t1 [e1|R]];
    destruct (get_all_video_ids_from_path w localpath) as [t2 [e2|L]];
    cbn [trace fst] in *; subst; try (exists []; auto; fail);
    destruct (fs_is_dir w localpath); eexists; (split; [reflexivity|auto]).
Qed.

Lemma downloader_trace (w : world) (channelname localpath : str)
    (outpath : option str) (dry_run : bool) :
  exists tail,
    trace (download_missing_videos w channelname localpath outpath dry_run) =
      (trace (get_all_video_ids_not_locally_available w channelname localpath)
       ++ tail) /\
    (tail = [] \/
     exists urls,
       tail = [count_report urls;
               if dry_run then dry_run_report urls
               else EDownload (ydl_opts (default localpath outpath)) urls]).
Proof.
  rewrite downloader_run.
  destruct (get_all_video_ids_not_locally_available w channelname localpath)
    as [tr [e|missing]]; cbn [trace fst].
  { exists []. rewrite app_nil_r. auto. }
  destruct (comprehension (add_str BASE_URL) (set_iter w missing)) as [e|urls].
  { exists []. rewrite app_nil_r. auto. }
  destruct dry_run; cbn [trace fst]; eexists; (split; [reflexivity|]);
    right; exists urls; reflexivity.
Qed.

(** X11.  When the diff computer fails, the downloader fails with the
    same exception; it has printed nothing and called no download. *)
Theorem downloader_propagates_failure (w : world)
    (channelname localpath : str) (outpath : option str)
    (dry_run : bool) (e : exn) :
  result (get_all_video_ids_not_locally_available w channelname localpath)
    = inl e ->
  let run := download_missing_videos w channelname localpath outpath dry_run in
  result run = inl e /\
  trace run =
    trace (get_all_video_ids_not_locally_available w channelname localpath) /\
  List.filter is_print (trace run) = [] /\
  List.filter is_download (trace run) = [].
Proof.
  intros He. cbv zeta.
  destruct (diff_trace_shape w channelname localpath) as (fs & Ht & Hfs).
  rewrite downloader_run.
  destruct (get_all_video_ids_not_locally_available w channelname localpath)
    as [tr [e'|missing]]; cbn [trace result fst snd] in *; [|discriminate].
  injection He as ->. subst tr. do 2 (split; [reflexivity|]).
  destruct Hfs as [-> |[-> | ->]]; split; reflexivity.
Qed.

(** X12.  In a real run the downloader ignores what the download call
    returns (the return code) and lets its exception through; either
    way the count has been reported just before the call. *)
Theorem download_outcome (w : world) (channelname localpath : str)
    (outpath : option str) (tr : list event) (missing : gset key)
    (urls : list str) :
  get_all_video_ids_not_locally_available w channelname localpath
    = (tr, inr missing) ->
  comprehension (add_str BASE_URL) (set_iter w missing) = inr urls ->
  let opts := ydl_opts (default localpath outpath) in
  let run := download_missing_videos w channelname localpath outpath false in
  trace run = (tr ++ [count_report urls; EDownload opts urls]) /\
  (forall retcode, ydl_download w opts urls = inr retcode ->
                   result run = inr tt) /\
  (forall e, ydl_download w opts urls = inl e -> result run = inl e).
Proof.
  intros Hdiff Hurls. cbv zeta. rewrite downloader_run, Hdiff, Hurls.
  cbn [trace result fst snd]. split; [reflexivity|].
  split; intros x ->; reflexivity.
Qed.

(** X13.  With an output directory given, every download call is
    configured with that directory as home, while the directory that is
    checked and scanned is still the local one. *)
Theorem explicit_outpath (w : world) (channelname localpath outpath : str)
    (dry_run : bool) :
  let run :=
    download_missing_videos w channelname localpath (Some outpath) dry_run in
  (forall params urls,
     EDownload params urls ∈ trace run ->
     params !! text "paths" = Some (VDict {[ text "home" := VStr outpath ]})) /\
  (forall p, EIsDir p ∈ trace run -> p = localpath) /\
  (forall p pat, EGlob p pat ∈ trace run -> p = localpath /\ pat = (text "*")).
Proof.
  cbv zeta.
  destruct (downloader_trace w channelname localpath (Some outpath) dry_run)
    as (tail & -> & Htail).
  destruct (diff_trace_shape w channelname localpath) as (fs & -> & Hfs).
  assert (forall ev, ev ∈ tail ->
            exists urls, ev = count_report urls \/ ev = dry_run_report urls \/
                         ev = EDownload (ydl_opts outpath) urls) as Ht.
  { intros ev Hev. destruct Htail as [-> |[urls ->]]; [inversion Hev|].
    exists urls. apply elem_of_cons in Hev as [-> |Hev]; [auto|].
    apply list_elem_of_singleton in Hev as ->. destruct dry_run; auto. }
  assert (forall ev, ev ∈ fs ->
            ev = EIsDir localpath \/ ev = EGlob localpath (text "*")) as Hf.
  { intros ev Hev. destruct Hfs as [-> |[-> | ->]].
    - inversion Hev.
    - apply list_elem_of_singleton in Hev. auto.
    - apply elem_of_cons in Hev as [-> |Hev]; [auto|].
      apply list_elem_of_singleton in Hev. auto. }
  split; [|split].
  - intros params urls Hin. apply elem_of_app in Hin as [Hin|Hin].
    + apply elem_of_cons in Hin as [Hin|Hin]; [discriminate|].
      destruct (Hf _ Hin); discriminate.
    + destruct (Ht _ Hin) as (us & [H|[H|H]]); try discriminate.
      injection H as -> _. unfold ydl_opts. apply lookup_insert_eq.
  - intros p Hin. apply elem_of_app in Hin as [Hin|Hin].
    + apply elem_of_cons in Hin as [Hin|Hin]; [discriminate|].
      destruct (Hf _ Hin) as [E|E]; [now injection E|discriminate].
    + destruct (Ht _ Hin) as (us & [E|[E|E]]); discriminate.
  - intros p pat Hin. apply elem_of_app in Hin as [Hin|Hin].
    + apply elem_of_cons in Hin as [Hin|Hin]; [discriminate|].
      destruct (Hf _ Hin) as [E|E]; [discriminate|].
      injection E as -> ->. auto.
    + destruct (Ht _ Hin) as (us & [E|[E|E]]); discriminate.
Qed.

Lemma comprehension_add_str_inv (s : str) (l : list key)
    (urls : list str) :
  comprehension (add_str s) l = inr urls ->
  exists ids, l = KStr <$> ids /\ urls = app s <$> ids.
Proof.
  revert urls. induction l as [|k l IH]; intros urls; simpl.
  - intros E. injection E as <-. now exists [].
  - destruct k as [|z|id]; try discriminate. simpl.
    destruct (comprehension (add_str s) l) as [e|us]; [discriminate|].
    intros E. injection E as <-.
    destruct (IH us eq_refl) as (ids & -> & ->). now exists (id :: ids).
Qed.

Lemma comprehension_non_str (s : str) (l : list key) (k : key) :
  k ∈ l -> is_str k = false -> comprehension (add_str s) l = inl TypeError.
Proof.
  intros Hin Hk. induction l as [|x l IH]; [inversion Hin|].
  simpl. destruct x as [|z|id]; try reflexivity. simpl.
  apply elem_of_cons in Hin as [-> |Hin]; [discriminate|].
  now rewrite (IH Hin).
Qed.

Lemma append_inj (s a b : str) : s ++ a = s ++ b -> a = b.
Proof. apply app_inv_head. Qed.

(** X14.  The URLs the downloader builds are one per missing
    identifier: there are as many as the set has elements, none is
    repeated, and each is the base URL followed by an identifier of
    the set. *)
Theorem urls_one_per_id (w : world) (missing : gset key) (urls : list str) :
  iter_ok w ->
  comprehension (add_str BASE_URL) (set_iter w missing) = inr urls ->
  NoDup urls /\
  length urls = size missing /\
  forall u, u ∈ urls <-> exists id, KStr id ∈ missing /\ u = BASE_URL ++ id.
Proof.
  intros Hw Hurls. specialize (Hw missing).
  destruct (comprehension_add_str_inv _ _ _ Hurls) as (ids & Hiter & ->).
  rewrite Hiter in Hw.
  assert (NoDup ids) as Hnd.
  { apply (NoDup_fmap_1 KStr). rewrite Hw. apply NoDup_elements. }
  split; [|split].
  - apply NoDup_fmap_2; [|assumption]. intros a b. apply append_inj.
  - rewrite length_fmap, <- (length_fmap KStr ids).
    apply Permutation_length in Hw. exact Hw.
  - intros u. rewrite list_elem_of_fmap. split.
    + intros (id & -> & Hid). exists id. split; [|reflexivity].
      apply elem_of_elements. rewrite <- Hw.
      apply list_elem_of_fmap. eauto.
    + intros (id & Hid & ->). exists id. split; [reflexivity|].
      apply elem_of_elements in Hid. rewrite <- Hw in Hid.
      apply list_elem_of_fmap in Hid as (id' & E & Hid'). now injection E as ->.
Qed.







(** X16.  When every remote identifier is present locally, nothing is
    missing; the downloader reports a count of 0 and, in a real run,
    still calls the download collaborator, with an empty URL list. *)
Theorem nothing_missing (w : world) (channelname localpath : str)
    (outpath : option str) (dry_run : bool)
    (channel_ids local_ids : gset key) :
  iter_ok w ->
  result (get_all_video_ids_from_channel w channelname) = inr channel_ids ->
  result (get_all_video_ids_from_path w localpath) = inr local_ids ->
  channel_ids ⊆ local_ids ->
  result (get_all_video_ids_not_locally_available w channelname localpath)
    = inr ∅ /\
  exists tr,
    trace (download_missing_videos w channelname localpath outpath dry_run) =
    (tr ++ [EPrint [Text (text "Downloading "); Num 0; Text (text " missing videos")];
            if dry_run then dry_run_report []
            else EDownload (ydl_opts (default localpath outpath)) []]).
Proof.
  intros Hw HR HL Hsub.
  assert (set_iter w ∅ = []) as Hiter.
  { apply Permutation_nil_r. rewrite (Hw ∅). now rewrite elements_empty. }
  assert (exists tr,
            get_all_video_ids_not_locally_available w channelname localpath =
            (tr, inr ∅)) as [tr Hdiff].
  { rewrite diff_run.
    destruct (get_all_video_ids_from_channel w channelname) as [t1 r1].
    destruct (get_all_video_ids_from_path w localpath) as [t2 r2].
    cbn [result snd] in HR, HL. subst r1 r2.
    rewrite (subseteq_empty_difference_L _ _ Hsub). eauto. }
  split; [now rewrite Hdiff|].
  exists tr. rewrite downloader_run, Hdiff, Hiter. cbn [comprehension].
  destruct dry_run; reflexivity.
Qed.

(** X17.  The identifiers of the listing are not checked to be
    strings.  When the missing set holds a value that is not a string,
    building the URLs fails with [TypeError]: the downloader fails
    before it reports or downloads anything. *)
Theorem non_string_id_stops_downloader (w : world)
    (channelname localpath : str) (outpath : option str)
    (dry_run : bool) (tr : list event) (missing : gset key) (k : key) :
  iter_ok w ->
  get_all_video_ids_not_locally_available w channelname localpath
    = (tr, inr missing) ->
  k ∈ missing ->
  is_str k = false ->
  download_missing_videos w channelname localpath outpath dry_run =
    (tr, inl TypeError).
Proof.
  intros Hw Hdiff Hk Hstr. rewrite downloader_run, Hdiff.
  rewrite (comprehension_non_str BASE_URL (set_iter w missing) k);
    [reflexivity| |assumption].
  rewrite (Hw missing). now apply elem_of_elements.
Qed.

(** ** The command line *)

Lemma cli_run (w : world) (args : Args.t) :
  cli w (inr args) =
  download_missing_videos w (Args.channelname args) (Args.dirpath args)
    None (Args.dry args).
Proof.
  unfold cli, lift, bind.
  destruct (download_missing_videos w _ _ None _) as [t r]. reflexivity.
Qed.

(** X18.  The command line gives no output directory.  When the
    arguments do not parse, nothing is called at all; otherwise it is
    the downloader's run on the parsed arguments without output
    directory; without [--dry] and when the URLs are built, it makes
    the download call with the scanned directory as home; and every
    download call it makes belongs to a run without [--dry] and has the
    scanned directory as home. *)
Theorem cli_downloads_into_dirpath (w : world) (parse_args : exn + Args.t) :
  (forall e, parse_args = inl e -> cli w parse_args = ([], inl e)) /\
  (forall args,
     parse_args = inr args ->
     cli w parse_args =
       download_missing_videos w (Args.channelname args) (Args.dirpath args)
         None (Args.dry args)) /\
  (forall args tr missing urls,
     parse_args = inr args ->
     Args.dry args = false ->
     get_all_video_ids_not_locally_available w (Args.channelname args)
       (Args.dirpath args) = (tr, inr missing) ->
     comprehension (add_str BASE_URL) (set_iter w missing) = inr urls ->
     trace (cli w parse_args) =
       (tr ++ [count_report urls;
               EDownload (ydl_opts (Args.dirpath args)) urls])) /\
  (forall params urls,
     EDownload params urls ∈ trace (cli w parse_args) ->
     exists args,
       parse_args = inr args /\
       Args.dry args = false /\
       params !! text "paths" =
         Some (VDict {[ text "home" := VStr (Args.dirpath args) ]})).
Proof.
  split; [|split; [|split]].
  - intros e ->. reflexivity.
  - intros args ->. apply cli_run.
  - intros args tr missing urls -> Hdry Hdiff Hurls.
    now rewrite cli_run, downloader_run, Hdiff, Hurls, Hdry.
  - intros params urls Hin. destruct parse_args as [e|args].
    { inversion Hin. }
    exists args. split; [reflexivity|]. rewrite cli_run in Hin.
    destruct (downloader_trace w (Args.channelname args) (Args.dirpath args)
                None (Args.dry args)) as (tail & Ht & Htail).
    rewrite Ht in Hin. apply elem_of_app in Hin as [Hin|Hin].
    + pose proof (diff_trace_no_download w (Args.channelname args)
                    (Args.dirpath args)) as Hnd.
      pose proof (no_download_elem _ _ Hnd Hin). discriminate.
    + destruct Htail as [-> |[us ->]]; [inversion Hin|].
      apply elem_of_cons in Hin as [Hin|Hin]; [discriminate|].
      apply list_elem_of_singleton in Hin.
      destruct (Args.dry args); [discriminate|].
      split; [reflexivity|]. injection Hin as -> _.
      unfold ydl_opts. apply lookup_insert_eq.
Qed.

(** ** Sample runs *)

Lemma diff_membership_witness :
  exists channel_ids,
    result (get_all_video_ids_from_channel mixed_world (text "@c")) =
      inr channel_ids /\
    forall k,
      k ∈ ({[ KStr (text "bbbbbbbbbbb"); KStr (text "ccccccccccc") ]}
             : gset key) <->
      k ∈ channel_ids /\
      forall file id,
        file ∈ fs_glob mixed_world (text "/v") (text "*") ->
        video_id_of file = Some id -> k <> KStr id.
Proof.
  apply (diff_membership mixed_world (text "@c") (text "/v")).
  vm_compute. reflexivity.
Defined.

Lemma downloader_propagates_failure_witness :
  result (download_missing_videos (mk_world (inr VNone) false [])
            (text "@c") (text "/nowhere") None false) = inl InvalidResponse /\
  trace (download_missing_videos (mk_world (inr VNone) false [])
           (text "@c") (text "/nowhere") None false) =
    trace (get_all_video_ids_not_locally_available
             (mk_world (inr VNone) false []) (text "@c") (text "/nowhere")) /\
  List.filter is_print
    (trace (download_missing_videos (mk_world (inr VNone) false [])
              (text "@c") (text "/nowhere") None false)) = [] /\
  List.filter is_download
    (trace (download_missing_videos (mk_world (inr VNone) false [])
              (text "@c") (text "/nowhere") None false)) = [].
Proof.
  apply (downloader_propagates_failure (mk_world (inr VNone) false [])
           (text "@c") (text "/nowhere") None false InvalidResponse).
  reflexivity.
Defined.

Lemma download_outcome_witness :
  trace (download_missing_videos example_world (text "@c") (text "/v") (Some (text "/out")) false) =
    (example_trace ++ [count_report [example_url];
                       EDownload (ydl_opts (text "/out")) [example_url]]) /\
  (forall retcode,
     ydl_download example_world (ydl_opts (text "/out")) [example_url] = inr retcode ->
     result (download_missing_videos example_world (text "@c") (text "/v") (Some (text "/out"))
               false) = inr tt) /\
  (forall e,
     ydl_download example_world (ydl_opts (text "/out")) [example_url] = inl e ->
     result (download_missing_videos example_world (text "@c") (text "/v") (Some (text "/out"))
               false) = inl e).
Proof.
  apply (download_outcome example_world (text "@c") (text "/v") (Some (text "/out")) example_trace
           {[ KStr (text "bbbbbbbbbbb") ]} [example_url]).
  - vm_compute. reflexivity.
  - vm_compute. reflexivity.
Defined.

Lemma explicit_outpath_witness :
  ydl_opts (text "/out") !! text "paths" = Some (VDict {[ text "home" := VStr (text "/out") ]}).
Proof.
  apply (proj1 (explicit_outpath example_world (text "@c") (text "/v") (text "/out") false)
           (ydl_opts (text "/out")) [example_url]).
  assert (trace (download_missing_videos example_world (text "@c") (text "/v")
                   (Some (text "/out")) false) =
          (example_trace ++ [count_report [example_url];
                             EDownload (ydl_opts (text "/out")) [example_url]]))
    as -> by (vm_compute; reflexivity).
  apply elem_of_app. right. right. left.
Defined.

Lemma urls_one_per_id_witness :
  NoDup [example_url] /\
  length [example_url] = size ({[ KStr (text "bbbbbbbbbbb") ]} : gset key) /\
  forall u, u ∈ [example_url] <->
            exists id, KStr id ∈ ({[ KStr (text "bbbbbbbbbbb") ]} : gset key) /\
                       u = BASE_URL ++ id.
Proof.
  apply (urls_one_per_id example_world).
  - apply mk_world_iter_ok.
  - vm_compute. reflexivity.
Defined.

Lemma nothing_missing_witness :
  result (get_all_video_ids_not_locally_available complete_world (text "@c") (text "/v"))
    = inr ∅ /\
  exists tr,
    trace (download_missing_videos complete_world (text "@c") (text "/v") None false) =
    (tr ++ [EPrint [Text (text "Downloading "); Num 0; Text (text " missing videos")];
            EDownload (ydl_opts (text "/v")) []]).
Proof.
  apply (nothing_missing complete_world (text "@c") (text "/v") None false
           {[ KStr (text "aaaaaaaaaaa") ]}
           {[ KStr (text "aaaaaaaaaaa"); KStr (text "ccccccccccc") ]}).
  - apply mk_world_iter_ok.
  - vm_compute. reflexivity.
  - vm_compute. reflexivity.
  - apply union_subseteq_l.
Defined.

Lemma non_string_id_stops_downloader_witness :
  download_missing_videos int_id_world (text "@c") (text "/v") None true =
    (example_trace, inl TypeError).
Proof.
  apply (non_string_id_stops_downloader int_id_world (text "@c") (text "/v") None true
           example_trace {[ KInt 7 ]} (KInt 7)).
  - apply mk_world_iter_ok.
  - vm_compute. reflexivity.
  - apply elem_of_singleton. reflexivity.
  - reflexivity.
Defined.


(** In that pair of runs the two URL lists are in opposite order. *)
Lemma reversed_run_reorders :
  exists u1 u2,
    u1 <> u2 /\
    trace (download_missing_videos mixed_world (text "@c") (text "/v")
             None true) =
      example_trace ++ [count_report [u1; u2]; dry_run_report [u1; u2]] /\
    trace (download_missing_videos (reversed mixed_world) (text "@c")
             (text "/v") None false) =
      example_trace ++ [count_report [u2; u1];
                        EDownload (ydl_opts (text "/v")) [u2; u1]].
Proof.
  exists (nth 0 (match comprehension (add_str BASE_URL)
                        (set_iter mixed_world
                           {[ KStr (text "bbbbbbbbbbb");
                              KStr (text "ccccccccccc") ]})
                 with inr us => us | inl _ => [] end) []),
         (nth 1 (match comprehension (add_str BASE_URL)
                        (set_iter mixed_world
                           {[ KStr (text "bbbbbbbbbbb");
                              KStr (text "ccccccccccc") ]})
                 with inr us => us | inl _ => [] end) []).
  split; [vm_compute; discriminate|].
  split; vm_compute; reflexivity.
Qed.

Lemma cli_downloads_into_dirpath_witness :
  trace (cli example_world
           (inr (Args.Make (text "@c") (text "/v") false))) =
    (example_trace ++ [count_report [example_url];
                       EDownload (ydl_opts (text "/v")) [example_url]]) /\
  ydl_opts (text "/v") !! text "paths" =
    Some (VDict {[ text "home" := VStr (text "/v") ]}).
Proof.
  assert (trace (cli example_world
                   (inr (Args.Make (text "@c") (text "/v") false))) =
          (example_trace ++ [count_report [example_url];
                             EDownload (ydl_opts (text "/v")) [example_url]]))
    as Htrace.
  { apply (proj1 (proj2 (proj2
             (cli_downloads_into_dirpath example_world
                (inr (Args.Make (text "@c") (text "/v") false)))))
             (Args.Make (text "@c") (text "/v") false) example_trace
             {[ KStr (text "bbbbbbbbbbb") ]} [example_url]).
    - reflexivity.
    - reflexivity.
    - vm_compute. reflexivity.
    - vm_compute. reflexivity. }
  split; [exact Htrace|].
  destruct (proj2 (proj2 (proj2
              (cli_downloads_into_dirpath example_world
                 (inr (Args.Make (text "@c") (text "/v") false)))))
              (ydl_opts (text "/v")) [example_url])
    as (args & Hargs & _ & Hhome).
  - rewrite Htrace. apply elem_of_app. right. right. left.
  - injection Hargs as <-. exact Hhome.
Defined.
